(** * package pipeline: build-pipeline factory, artifact naming and the
      registry of active pipelines (pipeline/pipeline.go)

    The development follows the Go file top-down.  Pure helpers
    ([NewBuildPipeline], [appendTypeToName]) are Rocq functions.  The
    registry ([ActivePipelines]) is a mutex-protected slice whose
    iterator runs in a goroutine of its own and hands the entries over an
    unbuffered channel; it is modelled by a small-step semantics of the
    goroutines involved (one calling goroutine, and the goroutines that
    its calls of [Iter] start), with an executable enumeration of the
    enabled steps. *)

From Stdlib Require Import String Ascii List Bool Arith Lia.
Import ListNotations.
Local Open Scope list_scope.
Local Open Scope string_scope.

Set Implicit Arguments.

(** ** The slice of package fmt that the file uses *)

Module fmt.

(** What [Sprintf] prints for the operands left over when the format is
    exhausted: [%!(EXTRA string=a, string=b)]. *)
Fixpoint extra (a : list string) : string :=
  match a with
  | [] => ""
  | [x] => "string=" ++ x
  | x :: a' => "string=" ++ x ++ ", " ++ extra a'
  end.

(** [fmt.Sprintf] for string operands and the verbs [%s] and [%%].  A
    [%s] without operand prints [%!s(MISSING)]; any other character,
    verbs that the file never uses included, is copied. *)
Fixpoint Sprintf (format : string) (a : list string) : string :=
  match format with
  | EmptyString =>
      match a with
      | [] => ""
      | _ :: _ => "%!(EXTRA " ++ extra a ++ ")"
      end
  | String c rest =>
      if (c =? "%")%char then
        match rest with
        | EmptyString => "%!(NOVERB)"
        | String v rest' =>
            if (v =? "s")%char then
              match a with
              | x :: a' => x ++ Sprintf rest' a'
              | [] => "%!s(MISSING)" ++ Sprintf rest' []
              end
            else if (v =? "%")%char then String "%" (Sprintf rest' a)
            else String c (String v (Sprintf rest' a))
        end
      else String c (Sprintf rest a)
  end.

End fmt.

(** ** The slice of package strings that decoding an artifact name uses *)

Module strings.

(** [strings.Contains(s, substr)]. *)
Fixpoint Contains (s substr : string) : bool :=
  String.prefix substr s
  || match s with
     | EmptyString => false
     | String _ s' => Contains s' substr
     end.

(** [s[n:]], the empty string when [s] is shorter than [n]. *)
Fixpoint drop (n : nat) (s : string) : string :=
  match n, s with
  | 0, _ => s
  | S _, EmptyString => EmptyString
  | S n', String _ s' => drop n' s'
  end.

(** [strings.Cut(s, sep)]: the text before and after the first
    occurrence of [sep], [None] when [sep] does not occur. *)
Fixpoint Cut (s sep : string) : option (string * string) :=
  if String.prefix sep s then Some ("", drop (String.length sep) s)
  else match s with
       | EmptyString => None
       | String c s' =>
           match Cut s' sep with
           | Some (before, after) => Some (String c before, after)
           | None => None
           end
       end.

End strings.

(** ** Slices and the mutex *)

(** A Go slice as far as the file can tell slices apart: the [nil] slice,
    or a slice with its elements.  [make([]T, 0)] is empty and not [nil];
    [append] never returns [nil] when it adds an element. *)
Inductive slice (A : Type) : Type :=
| nil_slice
| mk_slice (elems : list A).

Arguments nil_slice {A}.

Definition elems {A} (s : slice A) : list A :=
  match s with
  | nil_slice => []
  | mk_slice l => l
  end.

Definition len {A} (s : slice A) : nat := List.length (elems s).

Definition is_nil {A} (s : slice A) : bool :=
  match s with
  | nil_slice => true
  | mk_slice _ => false
  end.

Definition make0 {A} : slice A := mk_slice [].

Definition append1 {A} (s : slice A) (x : A) : slice A :=
  mk_slice (elems s ++ [x])%list.

(** [sync.RWMutex], of which the file only calls [Lock] and [Unlock]: it
    is free or held by one writer.  The zero value is free. *)
Inductive RWMutex : Type :=
| Unlocked
| Locked.

(** ** Constants of the package *)

Definition tmpFolder : string := "tmp".
Definition maxTimeoutMinutes : nat := 60.
Definition typeDelimiter : string := "_".

(** ** Sample declarations

    Pipeline types named by strings and pipelines made of a name and a
    type, for running the definitions below on concrete values. *)

Module Sample.

Definition GOLANG : string := "golang".

Definition PipelineType_String (t : string) : string := t.

Definition parseType (s : string) : option string := Some s.

Record Pipeline : Type := { Name : string; PType : string }.

Definition demo : Pipeline := {| Name := "demo"; PType := "golang" |}.
Definition other : Pipeline := {| Name := "other"; PType := "golang" |}.



End Sample.

(** ** The package *)

Section Package.

Local Open Scope list_scope.

(** Package gaia declares the pipeline types and the pipeline record,
    outside pipeline.go.  What pipeline.go uses of it is taken as a
    parameter: the type [gaia.PipelineType] with its [==] (the [switch]
    of [NewBuildPipeline]), the constant [gaia.GOLANG], the method
    [String], and [gaia.Pipeline] with its field [Name]. *)
Variable PipelineType : Type.
Variable PipelineType_eq_dec : forall a b : PipelineType, {a = b} + {a <> b}.
Variable GOLANG : PipelineType.
Variable PipelineType_String : PipelineType -> string.
Variable Pipeline : Type.
Variable Pipeline_Name : Pipeline -> string.

(** *** The factory *)

(** [BuildPipelineGolang] lives in a sibling file of the package; the
    composite literal of [NewBuildPipeline] shows its field [Type]. *)
Record BuildPipelineGolang : Type := { BuildPipelineGolang_Type : PipelineType }.

(** A value of the interface [BuildPipeline]: [nil], or a pointer to the
    one implementation that the factory knows. *)
Inductive BuildPipeline : Type :=
| BuildPipeline_nil
| BuildPipeline_Golang (b : BuildPipelineGolang).

Definition NewBuildPipeline (t : PipelineType) : BuildPipeline :=
  let bP := BuildPipeline_nil in
  if PipelineType_eq_dec t GOLANG
  then BuildPipeline_Golang {| BuildPipelineGolang_Type := t |}
  else bP.

(** *** The naming helper *)

Definition appendTypeToName (n : string) (pType : PipelineType) : string :=
  fmt.Sprintf "%s%s%s" [n; typeDelimiter; PipelineType_String pType].

(** Modelled from the spec: pipeline.go holds no decoder of artifact
    names.  The spec has the type recovered "by splitting on the delimiter and
    parsing the suffix": the name is the text before the first delimiter,
    and [parseType], the reader of canonical type strings, is applied to
    the text after it. *)
Definition parseArtifactName (parseType : string -> option PipelineType)
    (artifact : string) : option (string * PipelineType) :=
  match strings.Cut artifact typeDelimiter with
  | Some (name, suffix) =>
      match parseType suffix with
      | Some t => Some (name, t)
      | None => None
      end
  | None => None
  end.

(** *** The registry *)

Record ActivePipelines : Type := {
  mu : RWMutex;
  Pipelines : slice Pipeline }.

Definition NewActivePipelines : ActivePipelines :=
  {| mu := Unlocked; Pipelines := make0 |}.

(** The goroutine that [Iter] starts, by the statement it is at.  The
    [range] clause reads [ap.Pipelines] once, when the loop starts, so the
    loop carries the entries it has still to send. *)
Inductive iter_pc : Type :=
| IterLock
    (* at [ap.Lock()] *)
| IterRange (rest : list Pipeline)
    (* lock held; at [c <- pipeline] for the head of [rest], at [close(c)]
       when [rest] is empty *)
| IterUnlock.
    (* [c] closed; at the deferred [ap.Unlock()] *)

Record goroutine : Type := {
  g_chan : nat;
  g_pc : iter_pc }.

(** The calls a user of the registry makes.  [CallTraverse] is the loop
    [for p := range ap.Iter() { ... }] run to the end, collecting what
    it receives. *)
Inductive call : Type :=
| CallAppend (p : Pipeline)
| CallContains (n : string)
| CallTraverse.

Inductive value : Type :=
| VUnit
| VBool (b : bool)
| VEntries (l : list Pipeline).

(** The calling goroutine, by the statement it is at. *)
Inductive client_pc : Type :=
| Idle
    (* about to make the first call of [todo] *)
| AppendLocked (p : Pipeline)
    (* in [Append], lock held, at the assignment *)
| AppendStored
    (* in [Append], at the deferred [ap.Unlock()] *)
| ContainsRange (n : string) (c : nat)
    (* in [Contains], at the receive of [range ap.Iter()] *)
| TraverseRange (c : nat) (acc : list Pipeline).
    (* in the traversal loop, at the receive *)

(** A state of the program: the registry, the channels made so far
    (numbered in the order of their creation) and those closed, the
    iterator goroutines alive, and the caller with the calls it has still
    to make and the values returned to it so far. *)
Record config : Type := {
  ap : ActivePipelines;
  next_chan : nat;
  closed : list nat;
  goroutines : list goroutine;
  pc : client_pc;
  todo : list call;
  returned : list value }.

Definition is_closed (ch : nat) (c : config) : bool :=
  existsb (Nat.eqb ch) (closed c).

Definition set_mu (m : RWMutex) (a : ActivePipelines) : ActivePipelines :=
  {| mu := m; Pipelines := Pipelines a |}.

(** The function that [Iter] starts as a goroutine: what the goroutine
    [g] can do on its own, by the statement it is at; [pre] and [post]
    are the goroutines around it.  A send needs a receiver, see
    [senders]. *)
Definition Iter_func (c : config) (pre : list goroutine) (g : goroutine)
    (post : list goroutine) : list config :=
  match g_pc g with
  | IterLock =>
      (* ap.Lock(); defer ap.Unlock(); the range clause reads ap.Pipelines *)
      match mu (ap c) with
      | Unlocked =>
          [ {| ap := set_mu Locked (ap c);
               next_chan := next_chan c;
               closed := closed c;
               goroutines :=
                 pre ++ {| g_chan := g_chan g;
                           g_pc := IterRange (elems (Pipelines (ap c))) |} :: post;
               pc := pc c; todo := todo c; returned := returned c |} ]
      | Locked => []
      end
  | IterRange [] =>
      (* close(c) *)
      [ {| ap := ap c;
           next_chan := next_chan c;
           closed := g_chan g :: closed c;
           goroutines := pre ++ {| g_chan := g_chan g; g_pc := IterUnlock |} :: post;
           pc := pc c; todo := todo c; returned := returned c |} ]
  | IterRange (_ :: _) => []
  | IterUnlock =>
      (* the deferred ap.Unlock(); the goroutine ends *)
      [ {| ap := set_mu Unlocked (ap c);
           next_chan := next_chan c;
           closed := closed c;
           goroutines := pre ++ post;
           pc := pc c; todo := todo c; returned := returned c |} ]
  end.

Fixpoint goroutine_steps (c : config) (pre post : list goroutine) : list config :=
  match post with
  | [] => []
  | g :: post' => Iter_func c pre g post' ++ goroutine_steps c (pre ++ [g]) post'
  end.

(** The goroutines blocked in a send on channel [ch]: the entry each
    offers, and the goroutines once it is taken. *)
Fixpoint senders (ch : nat) (pre post : list goroutine)
    : list (Pipeline * list goroutine) :=
  match post with
  | [] => []
  | g :: post' =>
      match g_pc g with
      | IterRange (p :: rest) =>
          if (g_chan g =? ch)%nat
          then [ (p, pre ++ {| g_chan := g_chan g; g_pc := IterRange rest |} :: post') ]
          else []
      | _ => []
      end ++ senders ch (pre ++ [g]) post'
  end.

(** [func (ap *ActivePipelines) Iter() <-chan gaia.Pipeline]: make the
    channel, start the goroutine, return the channel to the caller, who
    goes on at [pc']. *)
Definition Iter (c : config) (pc' : client_pc) : config :=
  {| ap := ap c;
     next_chan := S (next_chan c);
     closed := closed c;
     goroutines := goroutines c ++ [ {| g_chan := next_chan c; g_pc := IterLock |} ];
     pc := pc'; todo := todo c; returned := returned c |}.

(** The current call returns [v]. *)
Definition ret (c : config) (a : ActivePipelines) (gs : list goroutine) (v : value)
    : config :=
  {| ap := a;
     next_chan := next_chan c;
     closed := closed c;
     goroutines := gs;
     pc := Idle; todo := tl (todo c); returned := returned c ++ [v] |}.

Definition goto (c : config) (a : ActivePipelines) (gs : list goroutine)
    (pc' : client_pc) : config :=
  {| ap := a;
     next_chan := next_chan c;
     closed := closed c;
     goroutines := gs;
     pc := pc'; todo := todo c; returned := returned c |}.

(** [func (ap *ActivePipelines) Append(p gaia.Pipeline)], by the
    statement the caller is at. *)
Definition Append (c : config) : list config :=
  match pc c with
  | Idle =>
      match todo c with
      | CallAppend p :: _ =>
          (* ap.Lock(); defer ap.Unlock() *)
          match mu (ap c) with
          | Unlocked => [ goto c (set_mu Locked (ap c)) (goroutines c) (AppendLocked p) ]
          | Locked => []
          end
      | _ => []
      end
  | AppendLocked p =>
      (* ap.Pipelines = append(ap.Pipelines, p) *)
      [ goto c {| mu := mu (ap c); Pipelines := append1 (Pipelines (ap c)) p |}
          (goroutines c) AppendStored ]
  | AppendStored =>
      (* the deferred ap.Unlock(); return *)
      [ ret c (set_mu Unlocked (ap c)) (goroutines c) VUnit ]
  | _ => []
  end.

(** [func (ap *ActivePipelines) Contains(n string) bool], by the
    statement the caller is at. *)
Definition Contains (c : config) : list config :=
  match pc c with
  | Idle =>
      match todo c with
      | CallContains n :: _ =>
          (* the range clause calls ap.Iter() *)
          [ Iter c (ContainsRange n (next_chan c)) ]
      | _ => []
      end
  | ContainsRange n ch =>
      (* a value arrives: if pipeline.Name == n { return true } *)
      map (fun '(p, gs) =>
             if (Pipeline_Name p =? n)%string
             then ret c (ap c) gs (VBool true)
             else goto c (ap c) gs (ContainsRange n ch))
          (senders ch [] (goroutines c))
      (* the channel is closed: the loop ends, return false *)
      ++ (if is_closed ch c then [ ret c (ap c) (goroutines c) (VBool false) ] else [])
  | _ => []
  end.

(** A caller's loop [for p := range ap.Iter() { acc = append(acc, p) }]
    run to the end of the channel. *)
Definition Traverse (c : config) : list config :=
  match pc c with
  | Idle =>
      match todo c with
      | CallTraverse :: _ => [ Iter c (TraverseRange (next_chan c) []) ]
      | _ => []
      end
  | TraverseRange ch acc =>
      map (fun '(p, gs) => goto c (ap c) gs (TraverseRange ch (acc ++ [p])))
          (senders ch [] (goroutines c))
      ++ (if is_closed ch c then [ ret c (ap c) (goroutines c) (VEntries acc) ] else [])
  | _ => []
  end.

(** What the caller can do. *)
Definition client_steps (c : config) : list config :=
  Append c ++ Contains c ++ Traverse c.

(** All the states one step away, whichever goroutine moves. *)
Definition successors (c : config) : list config :=
  goroutine_steps c [] (goroutines c) ++ client_steps c.

Definition step (c c' : config) : Prop := In c' (successors c).

Inductive reachable (c : config) : config -> Prop :=
| reach_refl : reachable c c
| reach_step c1 c2 : reachable c c1 -> step c1 c2 -> reachable c c2.

(** [inevitably P c]: however the goroutines are scheduled, the program
    run from [c] gets to a state with [P], and it does so before it can
    stop or block. *)
Inductive inevitably (P : config -> Prop) (c : config) : Prop :=
| inev_now : P c -> inevitably P c
| inev_step :
    successors c <> [] ->
    (forall c', step c c' -> inevitably P c') ->
    inevitably P c.

(** The same, decided by running every schedule for at most [fuel]
    steps. *)
Fixpoint explore (fuel : nat) (P : config -> bool) (c : config) : bool :=
  P c
  || match fuel with
     | 0 => false
     | S fuel' =>
         match successors c with
         | [] => false
         | cs => forallb (explore fuel' P) cs
         end
     end.

Arguments set_mu m a /.
Arguments Iter c pc' /.
Arguments ret c a gs v /.
Arguments goto c a gs pc' /.
Arguments is_closed ch c /.

(** The program started on a fresh registry. *)
Definition start (prog : list call) : config :=
  {| ap := NewActivePipelines;
     next_chan := 0;
     closed := [];
     goroutines := [];
     pc := Idle; todo := prog; returned := [] |}.


(** *** Predicates on states *)

(** Between two calls, an iterator that has handed over its last entry
    may still be on its way out: about to close its channel, or about to
    unlock.  It holds the lock until it is gone. *)
Inductive winding_down : RWMutex -> list goroutine -> Prop :=
| wd_gone : winding_down Unlocked []
| wd_close ch : winding_down Locked [ {| g_chan := ch; g_pc := IterRange [] |} ]
| wd_unlock ch : winding_down Locked [ {| g_chan := ch; g_pc := IterUnlock |} ].

(** The registry between two calls, holding the entries [ps]. *)
Record settled (ps : list Pipeline) (c : config) : Prop := {
  settled_entries : elems (Pipelines (ap c)) = ps;
  settled_notnil : is_nil (Pipelines (ap c)) = false;
  settled_pc : pc c = Idle;
  settled_wd : winding_down (mu (ap c)) (goroutines c);
  settled_closed : Forall (fun ch => ch < next_chan c) (closed c);
  settled_chans : Forall (fun g => g_chan g < next_chan c) (goroutines c) }.

(** An iteration under way: the iterator on channel [ch] holds the lock
    and has [rest] left to send; it is the only goroutine beside the
    caller, and its channel is open. *)
Record iterating (ch : nat) (rest : list Pipeline) (c : config) : Prop := {
  iterating_locked : mu (ap c) = Locked;
  iterating_notnil : is_nil (Pipelines (ap c)) = false;
  iterating_goroutines : goroutines c = [ {| g_chan := ch; g_pc := IterRange rest |} ];
  iterating_open : is_closed ch c = false;
  iterating_chan : ch < next_chan c;
  iterating_closed : Forall (fun ch' => ch' < next_chan c) (closed c) }.

(** Where the caller stands once [ap.Iter()] has returned channel [ch]
    to the loop of call [k]. *)
Definition range_pc (k : call) (ch : nat) : client_pc :=
  match k with
  | CallContains n => ContainsRange n ch
  | _ => TraverseRange ch []
  end.

(** The caller is inside [Append], holding the lock. *)
Definition in_append (c : config) : bool :=
  match pc c with
  | AppendLocked _ | AppendStored => true
  | _ => false
  end.

(** The channel the caller is receiving from, if any. *)
Definition receiving (c : config) : option nat :=
  match pc c with
  | ContainsRange _ ch | TraverseRange ch _ => Some ch
  | _ => None
  end.

(** The registry after [Contains] has returned from inside its loop with
    entries left: the iterator on channel [ch] holds the lock and is
    blocked in the send of [p], the channel has no receiver, and
    every other goroutine waits for the lock. *)
Record stuck (ch : nat) (p : Pipeline) (rest : list Pipeline) (c : config) : Prop := {
  stuck_locked : mu (ap c) = Locked;
  stuck_sender : In {| g_chan := ch; g_pc := IterRange (p :: rest) |} (goroutines c);
  stuck_others :
    forall g, In g (goroutines c) ->
      g = {| g_chan := ch; g_pc := IterRange (p :: rest) |} \/ g_pc g = IterLock;
  stuck_client : in_append c = false;
  stuck_old : ch < next_chan c;
  stuck_receiving :
    forall ch', receiving c = Some ch' -> ch' <> ch /\ is_closed ch' c = false;
  stuck_closed : Forall (fun ch' => ch' < next_chan c) (closed c) }.

(** Where the first entry named [n] is in a list: the entries before it,
    the entry, the entries after it. *)
Fixpoint first_named (n : string) (ps : list Pipeline)
    : option (list Pipeline * Pipeline * list Pipeline) :=
  match ps with
  | [] => None
  | p :: ps' =>
      if (Pipeline_Name p =? n)%string then Some ([], p, ps')
      else match first_named n ps' with
           | Some (before, q, after) => Some (p :: before, q, after)
           | None => None
           end
  end.

Definition has_name (n : string) (ps : list Pipeline) : bool :=
  existsb (fun p => (Pipeline_Name p =? n)%string) ps.

(** No call returns any more: whatever the schedule, the caller never
    gets past the first call of [todo]. *)
Definition blocked_forever (c : config) : Prop :=
  todo c <> []
  /\ forall c', reachable c c' -> returned c' = returned c /\ todo c' = todo c.

(** The program has run to its end and the calls have returned [vs]. *)
Definition finished (vs : list value) (c : config) : Prop :=
  todo c = [] /\ returned c = vs.

Definition units (ps : list Pipeline) : list value := map (fun _ => VUnit) ps.

(** What a program comes to, read off the calls one by one: the values
    returned, and the calls never completed.  A [Contains] that finds the
    name before the last entry returns [true] and is the last call to
    return. *)
Fixpoint outcome (ps : list Pipeline) (prog : list call)
    : list value * list call :=
  match prog with
  | [] => ([], [])
  | CallAppend p :: rest =>
      let (vs, left) := outcome (ps ++ [p]) rest in (VUnit :: vs, left)
  | CallTraverse :: rest =>
      let (vs, left) := outcome ps rest in (VEntries ps :: vs, left)
  | CallContains n :: rest =>
      match first_named n ps with
      | Some (_, _, _ :: _) => ([VBool true], rest)
      | _ => let (vs, left) := outcome ps rest in (VBool (has_name n ps) :: vs, left)
      end
  end.

(** *** The steps, by name *)

(** The steps that [successors] enumerates, one rule for each statement
    of [Iter]'s goroutine, of [Append], of [Contains] and of the
    traversal loop. *)
Inductive Step (c : config) : config -> Prop :=
| Step_iter_lock pre ch post :
    goroutines c = pre ++ {| g_chan := ch; g_pc := IterLock |} :: post ->
    mu (ap c) = Unlocked ->
    Step c (goto c (set_mu Locked (ap c))
              (pre ++ {| g_chan := ch;
                         g_pc := IterRange (elems (Pipelines (ap c))) |} :: post)
              (pc c))
| Step_iter_close pre ch post :
    goroutines c = pre ++ {| g_chan := ch; g_pc := IterRange [] |} :: post ->
    Step c {| ap := ap c; next_chan := next_chan c;
              closed := ch :: closed c;
              goroutines := pre ++ {| g_chan := ch; g_pc := IterUnlock |} :: post;
              pc := pc c; todo := todo c; returned := returned c |}
| Step_iter_unlock pre ch post :
    goroutines c = pre ++ {| g_chan := ch; g_pc := IterUnlock |} :: post ->
    Step c (goto c (set_mu Unlocked (ap c)) (pre ++ post) (pc c))
| Step_append_lock p rest :
    pc c = Idle -> todo c = CallAppend p :: rest -> mu (ap c) = Unlocked ->
    Step c (goto c (set_mu Locked (ap c)) (goroutines c) (AppendLocked p))
| Step_append_store p :
    pc c = AppendLocked p ->
    Step c (goto c {| mu := mu (ap c); Pipelines := append1 (Pipelines (ap c)) p |}
              (goroutines c) AppendStored)
| Step_append_unlock :
    pc c = AppendStored ->
    Step c (ret c (set_mu Unlocked (ap c)) (goroutines c) VUnit)
| Step_contains_call n rest :
    pc c = Idle -> todo c = CallContains n :: rest ->
    Step c (Iter c (ContainsRange n (next_chan c)))
| Step_contains_hit n ch pre p r post :
    pc c = ContainsRange n ch ->
    goroutines c = pre ++ {| g_chan := ch; g_pc := IterRange (p :: r) |} :: post ->
    (Pipeline_Name p =? n)%string = true ->
    Step c (ret c (ap c) (pre ++ {| g_chan := ch; g_pc := IterRange r |} :: post)
              (VBool true))
| Step_contains_miss n ch pre p r post :
    pc c = ContainsRange n ch ->
    goroutines c = pre ++ {| g_chan := ch; g_pc := IterRange (p :: r) |} :: post ->
    (Pipeline_Name p =? n)%string = false ->
    Step c (goto c (ap c) (pre ++ {| g_chan := ch; g_pc := IterRange r |} :: post)
              (ContainsRange n ch))
| Step_contains_closed n ch :
    pc c = ContainsRange n ch -> is_closed ch c = true ->
    Step c (ret c (ap c) (goroutines c) (VBool false))
| Step_traverse_call rest :
    pc c = Idle -> todo c = CallTraverse :: rest ->
    Step c (Iter c (TraverseRange (next_chan c) []))
| Step_traverse_recv ch acc pre p r post :
    pc c = TraverseRange ch acc ->
    goroutines c = pre ++ {| g_chan := ch; g_pc := IterRange (p :: r) |} :: post ->
    Step c (goto c (ap c) (pre ++ {| g_chan := ch; g_pc := IterRange r |} :: post)
              (TraverseRange ch (acc ++ [p])))
| Step_traverse_closed ch acc :
    pc c = TraverseRange ch acc -> is_closed ch c = true ->
    Step c (ret c (ap c) (goroutines c) (VEntries acc)).

(** *** Invariants *)

(** An iterator goroutine past [ap.Lock()] holds the lock until it
    ends. *)
Definition holds_lock (g : goroutine) : bool :=
  match g_pc g with
  | IterLock => false
  | IterRange _ | IterUnlock => true
  end.

(** How many goroutines are between a [Lock] and its [Unlock]. *)
Definition holders (c : config) : nat :=
  (if in_append c then 1 else 0) + List.length (filter holds_lock (goroutines c)).

Definition lock_count (m : RWMutex) : nat :=
  match m with
  | Locked => 1
  | Unlocked => 0
  end.

(** An iterator goroutine that has not yet closed its channel. *)
Definition before_close (g : goroutine) : bool :=
  match g_pc g with
  | IterLock | IterRange _ => true
  | IterUnlock => false
  end.

(** The channels are used as Go wants them: every goroutine has a
    channel of its own, among those made so far; a channel is closed at
    most once, and the channel of a goroutine that has still to send or
    to close is open. *)
Record chan_invariant (c : config) : Prop := {
  chans_made : Forall (fun g => g_chan g < next_chan c) (goroutines c);
  chans_own : NoDup (map g_chan (goroutines c));
  closed_made : Forall (fun ch => ch < next_chan c) (closed c);
  closed_once : NoDup (closed c);
  open_before_close :
    forall g, In g (goroutines c) -> before_close g = true ->
      is_closed (g_chan g) c = false }.

Definition is_CallAppend (k : call) : bool :=
  match k with
  | CallAppend _ => true
  | _ => false
  end.

Definition is_CallContains (k : call) : bool :=
  match k with
  | CallContains _ => true
  | _ => false
  end.

(** The lock is free and no iterator goroutine is left. *)
Definition quiescent (c : config) : Prop :=
  mu (ap c) = Unlocked /\ goroutines c = [] /\ pc c = Idle.

(** No [Contains] of the program finds its name before the last entry of
    the registry as it is when the call is made. *)
Fixpoint safe (ps : list Pipeline) (prog : list call) : bool :=
  match prog with
  | [] => true
  | CallAppend p :: rest => safe (ps ++ [p]) rest
  | CallTraverse :: rest => safe ps rest
  | CallContains n :: rest =>
      negb (has_name n (removelast ps)) && safe ps rest
  end.

(** ** Strings *)

Lemma append_empty_r (s : string) : (s ++ "")%string = s.
Proof. induction s as [|c s IH]; simpl; [reflexivity | now rewrite IH]. Qed.


Lemma append_length (s1 s2 : string) :
  String.length (s1 ++ s2) = String.length s1 + String.length s2.
Proof. induction s1 as [|c s1 IH]; simpl; [reflexivity | now rewrite IH]. Qed.

(** Two ways of cutting one text in two: one of the cuts comes first. *)
Lemma append_eq_append (a b c d : string) :
  (a ++ b)%string = (c ++ d)%string ->
  exists y, (c = (a ++ y)%string /\ b = (y ++ d)%string)
            \/ (a = (c ++ y)%string /\ d = (y ++ b)%string).
Proof.
  revert c. induction a as [|ch a IH]; intros c E; cbn in E.
  - exists c. left. now split.
  - destruct c as [|ch' c]; cbn in E.
    + exists (String ch a). right. now split.
    + injection E as <- E. destruct (IH _ E) as [y [[-> Hy]|[-> Hy]]].
      * exists y. left. now split.
      * exists y. right. now split.
Qed.

Lemma prefix_char (d c : ascii) (s : string) :
  String.prefix (String d "") (String c s) = (d =? c)%char.
Proof.
  simpl. destruct (ascii_dec d c) as [->|Hdc].
  - rewrite Ascii.eqb_refl. now destruct s.
  - symmetry. now apply Ascii.eqb_neq.
Qed.

(** A separator of one character is found right after a text that does
    not contain it. *)
Lemma Cut_append_char (d : ascii) (n suffix : string) :
  strings.Contains n (String d "") = false ->
  strings.Cut (n ++ String d suffix) (String d "") = Some (n, suffix).
Proof.
  induction n as [|c n IH]; intros Hn.
  - cbn [String.append strings.Cut]. rewrite prefix_char, Ascii.eqb_refl.
    reflexivity.
  - cbn [strings.Contains] in Hn. apply orb_false_iff in Hn as [Hc Hn].
    rewrite prefix_char in Hc.
    cbn [String.append strings.Cut]. rewrite prefix_char, Hc, (IH Hn).
    reflexivity.
Qed.

Lemma Contains_append_char (d : ascii) (n suffix : string) :
  strings.Contains (n ++ String d suffix) (String d "") = true.
Proof.
  induction n as [|c n IH]; cbn [String.append strings.Contains].
  - now rewrite prefix_char, Ascii.eqb_refl.
  - rewrite IH. apply orb_true_r.
Qed.

Lemma Sprintf_sss (a b c : string) :
  fmt.Sprintf "%s%s%s" [a; b; c] = (a ++ b ++ c)%string.
Proof. cbn. now rewrite append_empty_r. Qed.

(** ** Schedules *)

Lemma reachable_trans (c1 c2 c3 : config) :
  reachable c1 c2 -> reachable c2 c3 -> reachable c1 c3.
Proof.
  intros H12 H23. induction H23 as [|c c' _ IH Hs]; [assumption|].
  eapply reach_step; eassumption.
Qed.

Lemma inevitably_bind (P Q : config -> Prop) (c : config) :
  inevitably P c ->
  (forall c', P c' -> inevitably Q c') ->
  inevitably Q c.
Proof.
  intros HP HPQ. induction HP as [c Hc | c Hne _ IH].
  - now apply HPQ.
  - apply inev_step; assumption.
Qed.

Lemma inevitably_weaken (P Q : config -> Prop) (c : config) :
  inevitably P c -> (forall c', P c' -> Q c') -> inevitably Q c.
Proof.
  intros HP HPQ. apply (inevitably_bind HP).
  intros c' Hc'. apply inev_now. now apply HPQ.
Qed.

(** What is inevitable is possible. *)
Lemma inevitably_reachable (P : config -> Prop) (c : config) :
  inevitably P c -> exists c', reachable c c' /\ P c'.
Proof.
  induction 1 as [c Hc | c Hne Hs IH].
  - exists c. split; [constructor | assumption].
  - destruct (successors c) as [|c1 cs] eqn:E; [congruence|].
    destruct (IH c1) as (c' & Hr & Hc').
    { unfold step. rewrite E. now left. }
    exists c'. split; [|assumption].
    eapply reachable_trans; [|exact Hr].
    eapply reach_step; [constructor|]. unfold step. rewrite E. now left.
Qed.

Lemma explore_sound (fuel : nat) (P : config -> bool) (c : config) :
  explore fuel P c = true -> inevitably (fun c' => P c' = true) c.
Proof.
  revert c. induction fuel as [|fuel IH]; intros c H; cbn [explore] in H.
  - apply orb_true_iff in H as [H|H]; [now apply inev_now | discriminate].
  - apply orb_true_iff in H as [H|H]; [now apply inev_now|].
    destruct (successors c) as [|c1 cs] eqn:E; [discriminate|].
    apply inev_step; [congruence|].
    intros c' Hc'. unfold step in Hc'. rewrite E in Hc'.
    apply IH. rewrite forallb_forall in H. now apply H.
Qed.

(** The steps of the iterator goroutines, read backwards. *)
Lemma goroutine_steps_inv (c c' : config) (pre post : list goroutine) :
  In c' (goroutine_steps c pre post) ->
  exists l1 g l2,
    post = l1 ++ g :: l2 /\ In c' (Iter_func c (pre ++ l1) g l2).
Proof.
  revert pre. induction post as [|g post IH]; intros pre H; cbn in H; [contradiction|].
  apply in_app_or in H as [H|H].
  - exists [], g, post. rewrite app_nil_r. now split.
  - destruct (IH _ H) as (l1 & g' & l2 & -> & Hin).
    exists (g :: l1), g', l2. split; [reflexivity|].
    now rewrite <- app_assoc in Hin.
Qed.

Lemma senders_inv (ch : nat) (pre post : list goroutine) (p : Pipeline)
    (gs : list goroutine) :
  In (p, gs) (senders ch pre post) ->
  exists l1 rest l2,
    post = l1 ++ {| g_chan := ch; g_pc := IterRange (p :: rest) |} :: l2
    /\ gs = pre ++ l1 ++ {| g_chan := ch; g_pc := IterRange rest |} :: l2.
Proof.
  revert pre. induction post as [|g post IH]; intros pre H; cbn in H; [contradiction|].
  apply in_app_or in H as [H|H].
  - destruct g as [gc [|[|q rest]|]]; cbn in H; try contradiction.
    destruct (Nat.eqb_spec gc ch) as [->|]; [|contradiction].
    destruct H as [H|[]]. injection H as <- <-.
    exists [], rest, post. now split.
  - destruct (IH _ H) as (l1 & rest & l2 & -> & ->).
    exists (g :: l1), rest, l2. split; [reflexivity|].
    now rewrite <- app_assoc.
Qed.

(** ** The calls, one at a time *)

Lemma fresh_open (nc : nat) (cl : list nat) :
  Forall (fun ch => ch < nc) cl -> existsb (Nat.eqb nc) cl = false.
Proof.
  induction 1 as [|ch cl Hlt _ IH]; cbn; [reflexivity|].
  rewrite IH, orb_false_r. apply Nat.eqb_neq. lia.
Qed.

Ltac step_in H :=
  let c' := fresh "c'" in
  apply inev_step; [cbn; discriminate | intros c' H; cbn in H].

Ltac use_false H :=
  repeat first
    [ rewrite Nat.eqb_refl in H; cbn in H
    | match goal with
      | E : _ = false |- _ => rewrite E in H; cbn in H
      end ].

Ltac step_all H :=
  let c' := fresh "c'" in
  apply inev_step;
  [ cbn;
    repeat first
      [ rewrite Nat.eqb_refl; cbn
      | match goal with E : _ = false |- _ => rewrite E; cbn end ];
    discriminate
  | intros c' H; cbn in H; use_false H ].

Ltac one_step H := step_all H; destruct H as [<-|[]].
Ltac two_steps H := step_all H; destruct H as [<-|[<-|[]]].

Lemma append_returns (ps : list Pipeline) (p : Pipeline) (rest : list call)
    (c : config) :
  settled ps c -> todo c = CallAppend p :: rest ->
  inevitably (fun c' =>
      settled (ps ++ [p]) c' /\ todo c' = rest
      /\ returned c' = returned c ++ [VUnit]) c.
Proof.
  intros [He Hn Hpc Hwd Hcl Hch] Htd.
  destruct c as [[m P] nc cl gs k td rt]; cbn in *; subst.
  assert (Hfree : forall cl', Forall (fun ch => ch < nc) cl' ->
    inevitably (fun c' =>
      settled (elems P ++ [p]) c' /\ todo c' = rest
      /\ returned c' = rt ++ [VUnit])
    {| ap := {| mu := Unlocked; Pipelines := P |}; next_chan := nc;
       closed := cl'; goroutines := []; pc := Idle;
       todo := CallAppend p :: rest; returned := rt |}).
  { intros cl' Hcl'. do 3 one_step H.
    apply inev_now. repeat split; cbn; auto using winding_down. }
  inversion Hwd; subst.
  - now apply Hfree.
  - do 2 one_step H. apply Hfree. inversion Hch; subst. now constructor.
  - one_step H. now apply Hfree.
Qed.

Lemma fresh_open_cons (nc ch : nat) (cl : list nat) :
  ch < nc -> Forall (fun ch => ch < nc) cl ->
  (nc =? ch)%nat || existsb (Nat.eqb nc) cl = false.
Proof.
  intros Hlt Hcl. rewrite (fresh_open Hcl), orb_false_r.
  apply Nat.eqb_neq. lia.
Qed.

Lemma Forall_lt_S (cl : list nat) (nc : nat) :
  Forall (fun ch => ch < nc) cl -> Forall (fun ch => ch < S nc) cl.
Proof. apply Forall_impl. intros; lia. Qed.

Lemma iter_starts (ps : list Pipeline) (k : call) (rest : list call) (c : config) :
  settled ps c -> todo c = k :: rest ->
  (k = CallTraverse \/ exists n, k = CallContains n) ->
  inevitably (fun c' =>
      exists ch, iterating ch ps c' /\ pc c' = range_pc k ch
      /\ elems (Pipelines (ap c')) = ps
      /\ todo c' = todo c /\ returned c' = returned c) c.
Proof.
  intros [He Hn Hpc Hwd Hcl Hch] Htd Hk.
  destruct c as [[m P] nc cl gs pc0 td rt]; cbn in *; subst.
  assert (Hgo : forall cl', Forall (fun ch => ch < nc) cl' ->
    inevitably (fun c' =>
      exists ch, iterating ch (elems P) c' /\ pc c' = range_pc k ch
      /\ elems (Pipelines (ap c')) = elems P
      /\ todo c' = k :: rest /\ returned c' = rt)
    {| ap := {| mu := Unlocked; Pipelines := P |}; next_chan := S nc;
       closed := cl'; goroutines := [ {| g_chan := nc; g_pc := IterLock |} ];
       pc := range_pc k nc; todo := k :: rest; returned := rt |}).
  { intros cl' Hcl'. pose proof (fresh_open Hcl') as Hopen.
    destruct Hk as [->|[n ->]].
    - step_in H. rewrite Hopen in H. destruct H as [<-|[]].
      apply inev_now. exists nc. repeat split; cbn; auto using Forall_lt_S.
    - step_in H. rewrite Hopen in H. destruct H as [<-|[]].
      apply inev_now. exists nc. repeat split; cbn; auto using Forall_lt_S. }
  assert (Hidle : forall cl', Forall (fun ch => ch < nc) cl' ->
    inevitably (fun c' =>
      exists ch, iterating ch (elems P) c' /\ pc c' = range_pc k ch
      /\ elems (Pipelines (ap c')) = elems P
      /\ todo c' = k :: rest /\ returned c' = rt)
    {| ap := {| mu := Unlocked; Pipelines := P |}; next_chan := nc;
       closed := cl'; goroutines := []; pc := Idle;
       todo := k :: rest; returned := rt |}).
  { intros cl' Hcl'. destruct Hk as [->|[n ->]]; one_step H; now apply Hgo. }
  inversion Hwd; subst; [now apply Hidle | | ].
  - inversion Hch as [|? ? Hlt _]; subst; cbn in Hlt.
    assert (Hcl1 : Forall (fun ch => ch < nc) (ch :: cl)) by now constructor.
    pose proof (fresh_open Hcl) as Hopen.
    assert (Hne : (nc =? ch)%nat = false) by (apply Nat.eqb_neq; lia).
    destruct Hk as [->|[n ->]].
    + two_steps H.
      * two_steps H; [now apply Hidle|]. one_step H. now apply Hgo.
      * do 2 one_step H. now apply Hgo.
    + two_steps H.
      * two_steps H; [now apply Hidle|]. one_step H. now apply Hgo.
      * do 2 one_step H. now apply Hgo.
  - pose proof (fresh_open Hcl) as Hopen.
    destruct Hk as [->|[n ->]].
    + two_steps H; [now apply Hidle|]. one_step H. now apply Hgo.
    + two_steps H; [now apply Hidle|]. one_step H. now apply Hgo.
Qed.

Lemma traverse_loop (ch : nat) (l acc : list Pipeline) (k : call)
    (rest : list call) (c : config) :
  iterating ch l c -> pc c = TraverseRange ch acc -> todo c = k :: rest ->
  inevitably (fun c' =>
      settled (elems (Pipelines (ap c))) c' /\ todo c' = rest
      /\ returned c' = returned c ++ [VEntries (acc ++ l)]) c.
Proof.
  revert acc c. induction l as [|p l IH]; intros acc c [Hm Hn Hgs Hop Hlt Hcl] Hpc Htd;
    destruct c as [[m P] nc cl gs pc0 td rt]; cbn in *; subst.
  - one_step H. two_steps H.
    + one_step H. apply inev_now. rewrite app_nil_r.
      repeat split; cbn; auto using winding_down.
    + apply inev_now. rewrite app_nil_r.
      repeat split; cbn; auto using winding_down.
  - one_step H.
    eapply inevitably_weaken.
    + apply (IH (acc ++ [p])); [split; cbn; auto | reflexivity | reflexivity].
    + cbn. intros c' (Hs & Ht & Hr). rewrite <- app_assoc in Hr. auto.
Qed.

Lemma contains_loop (ch : nat) (n : string) (l : list Pipeline) (k : call)
    (rest : list call) (c : config) :
  iterating ch l c -> pc c = ContainsRange n ch -> todo c = k :: rest ->
  inevitably (fun c' =>
      todo c' = rest
      /\ returned c' = returned c ++ [VBool (has_name n l)]
      /\ elems (Pipelines (ap c')) = elems (Pipelines (ap c))
      /\ match first_named n l with
         | Some (_, _, q :: after) => stuck ch q after c'
         | _ => settled (elems (Pipelines (ap c))) c'
         end) c.
Proof.
  revert c. induction l as [|p l IH]; intros c [Hm Hn Hgs Hop Hlt Hcl] Hpc Htd;
    destruct c as [[m P] nc cl gs pc0 td rt]; cbn in *; subst.
  - one_step H. two_steps H.
    + one_step H. apply inev_now.
      repeat split; cbn; auto using winding_down.
    + apply inev_now.
      repeat split; cbn; auto using winding_down.
  - destruct (Pipeline_Name p =? n)%string eqn:E.
    + step_all H. rewrite E in H. destruct H as [<-|[]].
      apply inev_now. cbn. repeat split.
      destruct l as [|q after].
      * repeat split; cbn; auto using winding_down.
      * split; cbn; auto.
        -- intros g [<-|[]]. now left.
        -- discriminate.
    + one_step H.
      eapply inevitably_weaken.
      * apply IH; [split; cbn; auto | reflexivity | reflexivity].
      * cbn. intros c' (Ht & Hr & He & Hs). repeat split; auto.
        destruct (first_named n l) as [[[before q] after]|]; auto.
Qed.

Lemma traverse_returns (ps : list Pipeline) (rest : list call) (c : config) :
  settled ps c -> todo c = CallTraverse :: rest ->
  inevitably (fun c' =>
      settled ps c' /\ todo c' = rest
      /\ returned c' = returned c ++ [VEntries ps]) c.
Proof.
  intros Hs Htd.
  eapply inevitably_bind.
  - eapply iter_starts; eauto.
  - cbn. intros c1 (ch & Hit & Hpc & He & Htd1 & Hr1).
    eapply inevitably_weaken.
    + eapply (traverse_loop Hit Hpc). rewrite Htd1. exact Htd.
    + cbn. intros c' (Hs' & Ht' & Hr'). rewrite He in Hs'. rewrite Hr1 in Hr'. auto.
Qed.

Lemma contains_returns (ps : list Pipeline) (n : string) (rest : list call)
    (c : config) :
  settled ps c -> todo c = CallContains n :: rest ->
  inevitably (fun c' =>
      todo c' = rest
      /\ returned c' = returned c ++ [VBool (has_name n ps)]
      /\ elems (Pipelines (ap c')) = ps
      /\ match first_named n ps with
         | Some (_, _, q :: after) => exists ch, stuck ch q after c'
         | _ => settled ps c'
         end) c.
Proof.
  intros Hs Htd.
  eapply inevitably_bind.
  - eapply iter_starts; eauto.
  - cbn. intros c1 (ch & Hit & Hpc & He & Htd1 & Hr1).
    eapply inevitably_weaken.
    + eapply (contains_loop Hit Hpc). rewrite Htd1. exact Htd.
    + cbn. intros c' (Ht' & Hr' & He' & Hs'). rewrite He in *. rewrite Hr1 in Hr'.
      repeat split; auto.
      destruct (first_named n ps) as [[[before q] [|q' after]]|]; eauto.
Qed.

(** ** The blocked registry *)

Lemma stuck_spawn (ch : nat) (p : Pipeline) (rest : list Pipeline) (k : call)
    (c : config) :
  stuck ch p rest c ->
  stuck ch p rest (Iter c (range_pc k (next_chan c))).
Proof.
  intros [Hm Hsnd Hoth Hcli Hold Hrcv Hcl].
  split; cbn; auto.
  - apply in_or_app. now left.
  - intros g Hg. apply in_app_or in Hg as [Hg|[<-|[]]]; auto.
  - now destruct k.
  - intros ch' Hr.
    assert (ch' = next_chan c) as -> by (destruct k; cbn in Hr; congruence).
    split; [lia | now apply fresh_open].
  - now apply Forall_lt_S.
Qed.

Lemma stuck_step (ch : nat) (p : Pipeline) (rest : list Pipeline) (c c' : config) :
  stuck ch p rest c -> step c c' ->
  stuck ch p rest c' /\ returned c' = returned c /\ todo c' = todo c
  /\ ap c' = ap c.
Proof.
  intros Hs Hstep. pose proof Hs as [Hm Hsnd Hoth Hcli Hold Hrcv Hcl].
  unfold step, successors in Hstep. apply in_app_or in Hstep as [Hg|Hc].
  - (* no iterator can move *)
    apply goroutine_steps_inv in Hg as (l1 & g & l2 & Hgs & Hin).
    destruct (Hoth g) as [->|Hlock].
    { rewrite Hgs. apply in_elt. }
    + cbn in Hin. contradiction.
    + unfold Iter_func in Hin. rewrite Hlock, Hm in Hin. contradiction.
  - (* the caller *)
    unfold client_steps in Hc.
    assert (Hrange : forall ch' (f : Pipeline * list goroutine -> config)
                       (last : list config),
        receiving c = Some ch' ->
        In c' (map f (senders ch' [] (goroutines c))
               ++ (if is_closed ch' c then last else [])) -> False).
    { intros ch' f last Hrc Hin. destruct (Hrcv _ Hrc) as [Hne Hopen].
      rewrite Hopen, app_nil_r in Hin.
      apply in_map_iff in Hin as ([q gs] & _ & Hin).
      apply senders_inv in Hin as (l1 & r & l2 & Hgs & _).
      destruct (Hoth {| g_chan := ch'; g_pc := IterRange (q :: r) |}) as [E|E].
      { rewrite Hgs. apply in_elt. }
      - injection E as E _. congruence.
      - discriminate. }
    unfold in_append in Hcli. unfold receiving in Hrange.
    unfold Append, Contains, Traverse in Hc.
    destruct (pc c) eqn:Hpc; try discriminate.
    + destruct (todo c) as [|[q|n|] td] eqn:Htd; cbn in Hc;
        rewrite <- ?Htd; try contradiction.
      * rewrite Hm in Hc. contradiction.
      * destruct Hc as [<-|[]]. split; [|now cbn].
        now apply (stuck_spawn (CallContains n)).
      * destruct Hc as [<-|[]]. split; [|now cbn].
        now apply (stuck_spawn CallTraverse).
    + cbn [app] in Hc. rewrite app_nil_r in Hc.
      destruct (Hrange _ _ _ eq_refl Hc).
    + cbn [app] in Hc.
      destruct (Hrange _ _ _ eq_refl Hc).
Qed.

(** Once the registry is blocked it stays so: the lock is never free
    again, the sender never gets rid of its entry, and no call returns. *)
Lemma stuck_forever (ch : nat) (p : Pipeline) (rest : list Pipeline)
    (c c' : config) :
  stuck ch p rest c -> reachable c c' ->
  stuck ch p rest c' /\ returned c' = returned c /\ todo c' = todo c
  /\ ap c' = ap c.
Proof.
  intros Hs Hr. induction Hr as [|c1 c2 _ IH Hstep]; [auto|].
  destruct IH as (Hs1 & Hr1 & Ht1 & Ha1).
  destruct (stuck_step c2 Hs1 Hstep) as (Hs2 & Hr2 & Ht2 & Ha2).
  split; [assumption|]. repeat split; congruence.
Qed.

(** ** Programs *)

Lemma settled_start (prog : list call) : settled [] (start prog).
Proof. split; cbn; auto using winding_down. Qed.

Lemma appends_return (ps0 ps : list Pipeline) (rest : list call) (c : config) :
  settled ps0 c -> todo c = map CallAppend ps ++ rest ->
  inevitably (fun c' =>
      settled (ps0 ++ ps) c' /\ todo c' = rest
      /\ returned c' = returned c ++ units ps) c.
Proof.
  revert ps0 c. induction ps as [|p ps IH]; intros ps0 c Hs Htd.
  - apply inev_now. cbn in *. rewrite !app_nil_r. auto.
  - eapply inevitably_bind; [exact (append_returns Hs Htd)|].
    cbn. intros c1 (Hs1 & Ht1 & Hr1).
    eapply inevitably_weaken; [exact (IH _ _ Hs1 Ht1)|].
    cbn. intros c' (Hs' & Ht' & Hr').
    rewrite <- app_assoc in Hs'. rewrite Hr1, <- app_assoc in Hr'. auto.
Qed.

Lemma stuck_blocked (ch : nat) (p : Pipeline) (rest : list Pipeline) (c : config) :
  stuck ch p rest c -> todo c <> [] -> blocked_forever c.
Proof.
  intros Hs Htd. split; [assumption|].
  intros c' Hr. destruct (stuck_forever Hs Hr) as (_ & Hr' & Ht' & _). auto.
Qed.

Lemma first_named_spec (n : string) (ps before after : list Pipeline) (p : Pipeline) :
  first_named n ps = Some (before, p, after) ->
  ps = before ++ p :: after /\ Pipeline_Name p = n /\ has_name n before = false.
Proof.
  revert before. induction ps as [|q ps IH]; intros before H; cbn in H; [discriminate|].
  destruct (Pipeline_Name q =? n)%string eqn:E.
  - injection H as <- <- <-. apply String.eqb_eq in E. auto.
  - destruct (first_named n ps) as [[[b r] a]|]; [|discriminate].
    injection H as <- <- <-. destruct (IH b eq_refl) as (-> & Hn & Hb).
    cbn. rewrite E. auto.
Qed.

Lemma first_named_none (n : string) (ps : list Pipeline) :
  first_named n ps = None <-> has_name n ps = false.
Proof.
  induction ps as [|q ps IH]; cbn; [split; reflexivity|].
  destruct (Pipeline_Name q =? n)%string; cbn.
  - split; discriminate.
  - destruct (first_named n ps) as [[[b r] a]|].
    + split; [discriminate|]. intros H. apply IH in H. discriminate.
    + split; [|reflexivity]. intros _. now apply IH.
Qed.

Lemma has_name_iff (n : string) (ps : list Pipeline) :
  has_name n ps = true <-> exists p, In p ps /\ Pipeline_Name p = n.
Proof.
  unfold has_name. rewrite existsb_exists.
  split; intros (p & Hin & Hp); exists p; split; auto; now apply String.eqb_eq.
Qed.

(** On a registry at rest, [Contains] does return, and what it returns is
    whether an entry has the name. *)
Lemma Contains_at_rest (ps : list Pipeline) (n : string) (rest : list call)
    (c : config) :
  settled ps c -> todo c = CallContains n :: rest ->
  inevitably (fun c' =>
      todo c' = rest /\ returned c' = returned c ++ [VBool (has_name n ps)]) c.
Proof.
  intros Hs Htd. eapply inevitably_weaken; [exact (contains_returns Hs Htd)|].
  cbn. intros c' (Ht & Hr & _). now split.
Qed.

(** X3.  Right after an [Append] that has returned, [Contains] of the
    name appended returns [true], whatever the registry at rest held
    before. *)
Lemma Contains_after_Append (ps : list Pipeline) (p : Pipeline)
    (rest : list call) (c : config) :
  settled ps c ->
  todo c = CallAppend p :: CallContains (Pipeline_Name p) :: rest ->
  inevitably (fun c' =>
      todo c' = rest /\ returned c' = returned c ++ [VUnit; VBool true]) c.
Proof.
  intros Hs Htd.
  eapply inevitably_bind; [exact (append_returns Hs Htd)|].
  cbn. intros c1 (Hs1 & Ht1 & Hr1).
  eapply inevitably_weaken; [exact (Contains_at_rest Hs1 Ht1)|].
  cbn. intros c' (Ht & Hr). split; [assumption|].
  assert (Hhas : has_name (Pipeline_Name p) (ps ++ [p]) = true).
  { apply has_name_iff. exists p. split; [|reflexivity].
    apply in_or_app. right. now left. }
  rewrite Hr, Hr1, Hhas, <- app_assoc. reflexivity.
Qed.

(** X1.  The program run on a registry at rest does, under every
    schedule, what [outcome] says: the calls return these values, and the
    calls left over, if any, never return. *)
Lemma run_outcome (prog : list call) (ps : list Pipeline) (c : config) :
  settled ps c -> todo c = prog ->
  inevitably (fun c' =>
      returned c' = returned c ++ fst (outcome ps prog)
      /\ todo c' = snd (outcome ps prog)
      /\ (todo c' = [] \/ blocked_forever c')) c.
Proof.
  revert ps c. induction prog as [|k rest IH]; intros ps c Hs Htd.
  - apply inev_now. cbn. rewrite app_nil_r. auto.
  - destruct k as [p|n|].
    + eapply inevitably_bind; [exact (append_returns Hs Htd)|].
      cbn. intros c1 (Hs1 & Ht1 & Hr1).
      eapply inevitably_weaken; [exact (IH _ _ Hs1 Ht1)|].
      cbn. intros c' (Hr' & Ht' & Hb').
      destruct (outcome (ps ++ [p]) rest) as [vs left]. cbn in *.
      rewrite Hr1, <- app_assoc in Hr'. auto.
    + eapply inevitably_bind; [exact (contains_returns Hs Htd)|].
      cbn. intros c1 (Ht1 & Hr1 & He1 & Hs1).
      destruct (first_named n ps) as [[[before q] [|q' after]]|] eqn:Hf.
      * eapply inevitably_weaken; [exact (IH _ _ Hs1 Ht1)|].
        cbn. intros c' (Hr' & Ht' & Hb').
        destruct (outcome ps rest) as [vs left]. cbn in *.
        rewrite Hr1, <- app_assoc in Hr'. auto.
      * apply inev_now. cbn. destruct Hs1 as [ch Hst].
        assert (Hhas : has_name n ps = true).
        { destruct (has_name n ps) eqn:E; [reflexivity|].
          apply first_named_none in E. congruence. }
        rewrite Hhas in Hr1. repeat split; auto.
        destruct rest as [|k' rest']; [now left|]. right.
        apply (stuck_blocked Hst). rewrite Ht1. discriminate.
      * eapply inevitably_weaken; [exact (IH _ _ Hs1 Ht1)|].
        cbn. intros c' (Hr' & Ht' & Hb').
        destruct (outcome ps rest) as [vs left]. cbn in *.
        rewrite Hr1, <- app_assoc in Hr'. auto.
    + eapply inevitably_bind; [exact (traverse_returns Hs Htd)|].
      cbn. intros c1 (Hs1 & Ht1 & Hr1).
      eapply inevitably_weaken; [exact (IH _ _ Hs1 Ht1)|].
      cbn. intros c' (Hr' & Ht' & Hb').
      destruct (outcome ps rest) as [vs left]. cbn in *.
      rewrite Hr1, <- app_assoc in Hr'. auto.
Qed.

(** ** Main results *)

(** C1.  [Contains] does not answer in every state of the registry.  On
    the registry holding [p1] then [p2], [Contains] of the name of [p1]
    returns [true] from inside its loop; from then on no call of
    [Contains] returns, whichever name it is asked: not for the name of
    [p1], which the registry holds, and not for a name never appended. *)
Theorem Contains_blocks_after_early_return (p1 p2 : Pipeline) (n' : string) :
  inevitably (fun c =>
      returned c = [VUnit; VUnit; VBool true]
      /\ todo c = [CallContains n']
      /\ elems (Pipelines (ap c)) = [p1; p2]
      /\ blocked_forever c)
    (start [CallAppend p1; CallAppend p2;
            CallContains (Pipeline_Name p1); CallContains n']).
Proof.
  eapply inevitably_bind.
  - apply (@appends_return [] [p1; p2]
             [CallContains (Pipeline_Name p1); CallContains n']);
      [apply settled_start | reflexivity].
  - cbn. intros c1 (Hs1 & Ht1 & Hr1).
    eapply inevitably_weaken; [exact (contains_returns Hs1 Ht1)|].
    cbn. rewrite String.eqb_refl. cbn.
    intros c (Ht & Hr & He & ch & Hst).
    rewrite Hr1 in Hr. repeat split; auto.
    + rewrite Ht. discriminate.
    + now destruct (stuck_forever Hst H) as (_ & ? & _).
    + now destruct (stuck_forever Hst H) as (_ & _ & ? & _).
Qed.

(** C2.  After the calls [Append(p)] for the [p] of a list [ps], made one
    after the other on a fresh registry, the registry holds as many
    entries as calls were made, namely [ps] in the order of the calls
    (names may repeat), and a traversal made then yields all of them. *)
Theorem Append_no_lost_update (ps : list Pipeline) :
  inevitably (fun c =>
      finished (units ps ++ [VEntries ps]) c
      /\ len (Pipelines (ap c)) = List.length ps
      /\ elems (Pipelines (ap c)) = ps)
    (start (map CallAppend ps ++ [CallTraverse])).
Proof.
  eapply inevitably_bind.
  - apply (@appends_return [] ps [CallTraverse]);
      [apply settled_start | reflexivity].
  - cbn. intros c1 (Hs1 & Ht1 & Hr1).
    eapply inevitably_weaken; [exact (traverse_returns Hs1 Ht1)|].
    cbn. intros c (Hs & Ht & Hr). rewrite Hr1 in Hr.
    destruct Hs as [He _ _ _ _ _].
    unfold finished, len. rewrite He. auto.
Qed.

(** C3.  A traversal started after the [N] calls of [Append] yields the
    [N] entries in the order they were appended, and a second traversal
    of the unchanged registry yields the same entries in the same
    order. *)
Theorem Traverse_in_append_order_twice (ps : list Pipeline) :
  inevitably (fun c =>
      finished (units ps ++ [VEntries ps; VEntries ps]) c
      /\ elems (Pipelines (ap c)) = ps)
    (start (map CallAppend ps ++ [CallTraverse; CallTraverse])).
Proof.
  eapply inevitably_bind.
  - apply (@appends_return [] ps [CallTraverse; CallTraverse]);
      [apply settled_start | reflexivity].
  - cbn. intros c1 (Hs1 & Ht1 & Hr1).
    eapply inevitably_bind; [exact (traverse_returns Hs1 Ht1)|].
    cbn. intros c2 (Hs2 & Ht2 & Hr2).
    eapply inevitably_weaken; [exact (traverse_returns Hs2 Ht2)|].
    cbn. intros c (Hs & Ht & Hr). rewrite Hr2, Hr1, <- !app_assoc in Hr.
    destruct Hs as [He _ _ _ _ _]. unfold finished. auto.
Qed.

(** C4.  [NewBuildPipeline] returns [nil] for every pipeline type other
    than [GOLANG], the only type with a case in the [switch]; for
    [GOLANG] it returns a [BuildPipelineGolang] whose field [Type] is the
    type asked for.  It returns for every type. *)
Theorem NewBuildPipeline_dispatch (t : PipelineType) :
  (t <> GOLANG -> NewBuildPipeline t = BuildPipeline_nil)
  /\ (t = GOLANG ->
      exists b, NewBuildPipeline t = BuildPipeline_Golang b
                /\ BuildPipelineGolang_Type b = t).
Proof.
  unfold NewBuildPipeline. destruct (PipelineType_eq_dec t GOLANG) as [E|E]; split.
  - contradiction.
  - intros _. eexists. split; reflexivity.
  - reflexivity.
  - contradiction.
Qed.

(** C5.  For a name that does not contain the delimiter and any pipeline
    type, decoding the encoded artifact name (the text before the first
    delimiter, and the type read from the text after it) gives back the
    name and the type. *)
Theorem parseArtifactName_appendTypeToName
    (parseType : string -> option PipelineType) (n : string) (t : PipelineType) :
  (forall t', parseType (PipelineType_String t') = Some t') ->
  strings.Contains n typeDelimiter = false ->
  parseArtifactName parseType (appendTypeToName n t) = Some (n, t).
Proof.
  intros Hparse Hn. unfold parseArtifactName, appendTypeToName.
  rewrite Sprintf_sss. unfold typeDelimiter in *. cbn [String.append].
  rewrite (@Cut_append_char _ _ _ Hn), Hparse. reflexivity.
Qed.

(** C6.  The artifact name is the pipeline name, the delimiter ["_"] and
    the string of the pipeline type, in this order. *)
Theorem appendTypeToName_concat (n : string) (t : PipelineType) :
  appendTypeToName n t = (n ++ typeDelimiter ++ PipelineType_String t)%string
  /\ typeDelimiter = "_"%string.
Proof. split; [apply Sprintf_sss | reflexivity]. Qed.

(** C8.  When [Contains(n)] finds the name at an entry that is not the
    last one, it returns [true] and leaves the goroutine of its [Iter]
    blocked in the send of the next entry, on a channel that nobody
    receives from, with the lock of the registry held.  From then on the
    lock is never released: no later call returns, be it [Append],
    [Contains] or a traversal, and the goroutine of every later [Iter]
    stays at [ap.Lock()]. *)
Theorem Contains_early_return_deadlock (ps before after : list Pipeline)
    (p q : Pipeline) (n : string) (rest : list call) (c : config) :
  settled ps c ->
  todo c = CallContains n :: rest ->
  first_named n ps = Some (before, p, q :: after) ->
  inevitably (fun c1 =>
      returned c1 = returned c ++ [VBool true]
      /\ todo c1 = rest
      /\ exists ch,
          forall c2, reachable c1 c2 ->
            mu (ap c2) = Locked
            /\ In {| g_chan := ch; g_pc := IterRange (q :: after) |} (goroutines c2)
            /\ receiving c2 <> Some ch
            /\ (forall g, In g (goroutines c2) -> g_chan g <> ch -> g_pc g = IterLock)
            /\ returned c2 = returned c1
            /\ todo c2 = rest) c.
Proof.
  intros Hs Htd Hfirst.
  eapply inevitably_weaken; [exact (contains_returns Hs Htd)|].
  cbn. rewrite Hfirst. intros c1 (Ht & Hr & He & ch & Hst).
  destruct (first_named_spec _ _ Hfirst) as (Hps & Hp & Hb).
  assert (Hhas : has_name n ps = true).
  { apply has_name_iff. exists p. split; [|assumption].
    rewrite Hps. apply in_elt. }
  rewrite Hhas in Hr. repeat split; auto.
  exists ch. intros c2 Hreach.
  destruct (stuck_forever Hst Hreach) as ([Hm Hsnd Hoth Hcli Hold Hrcv Hcl] & Hr2 & Ht2 & _).
  repeat split; auto; try congruence.
  - intros E. destruct (Hrcv _ E) as [Hne _]. now apply Hne.
  - intros g Hg Hne. destruct (Hoth g Hg) as [->|]; [|assumption].
    cbn in Hne. congruence.
Qed.


(** The other way round: two pairs are given the same artifact name only
    if they have the same name and the same type string, or if the string
    of one of the two types ends in the delimiter followed by the string
    of the other. *)
Lemma appendTypeToName_collision_inv (n1 n2 : string) (t1 t2 : PipelineType) :
  appendTypeToName n1 t1 = appendTypeToName n2 t2 ->
  (n1 = n2 /\ PipelineType_String t1 = PipelineType_String t2)
  \/ (exists x, PipelineType_String t1
                = (x ++ typeDelimiter ++ PipelineType_String t2)%string)
  \/ (exists x, PipelineType_String t2
                = (x ++ typeDelimiter ++ PipelineType_String t1)%string).
Proof.
  unfold appendTypeToName. rewrite !Sprintf_sss. unfold typeDelimiter.
  cbn [String.append]. intros E.
  destruct (append_eq_append _ _ _ _ E) as [y [[-> Hy]|[-> Hy]]].
  - destruct y as [|c y]; cbn in Hy.
    + injection Hy as Hy. left. now rewrite append_empty_r.
    + injection Hy as <- Hy. right. left. now exists y.
  - destruct y as [|c y]; cbn in Hy.
    + injection Hy as Hy. left. now rewrite append_empty_r.
    + injection Hy as <- Hy. right. right. now exists y.
Qed.

(** C10.  [NewActivePipelines] returns a registry whose slice is empty
    and not [nil]; on it, [Contains] returns [false] whatever the name,
    and a traversal yields no entry. *)
Theorem NewActivePipelines_empty (n : string) :
  is_nil (Pipelines NewActivePipelines) = false
  /\ len (Pipelines NewActivePipelines) = 0
  /\ inevitably (finished [VBool false]) (start [CallContains n])
  /\ inevitably (finished [VEntries []]) (start [CallTraverse]).
Proof.
  split; [reflexivity|]. split; [reflexivity|]. split.
  - eapply inevitably_weaken.
    + apply (@Contains_at_rest [] n []); [apply settled_start | reflexivity].
    + cbn. intros c' [Ht Hr]. now split.
  - eapply inevitably_weaken.
    + apply (@traverse_returns [] []); [apply settled_start | reflexivity].
    + cbn. intros c' (_ & Ht & Hr). now split.
Qed.

(** ** The steps by name, and what every step keeps *)

Lemma step_Step (c c' : config) : step c c' -> Step c c'.
Proof.
  intros Hstep. unfold step, successors in Hstep.
  apply in_app_or in Hstep as [Hg|Hc].
  - apply goroutine_steps_inv in Hg as (l1 & [ch k] & l2 & Hgs & Hin).
    cbn [app] in Hgs, Hin. unfold Iter_func in Hin. cbn in Hin.
    destruct k as [|[|q r]|].
    + destruct (mu (ap c)) eqn:Hm; [|contradiction].
      destruct Hin as [<-|[]]. eapply Step_iter_lock; eassumption.
    + destruct Hin as [<-|[]]. eapply Step_iter_close; eassumption.
    + contradiction.
    + destruct Hin as [<-|[]]. eapply Step_iter_unlock; eassumption.
  - unfold client_steps, Append, Contains, Traverse in Hc.
    destruct (pc c) eqn:Hpc.
    + destruct (todo c) as [|[q|n|] td] eqn:Htd; cbn in Hc; try contradiction.
      * destruct (mu (ap c)) eqn:Hm; [|contradiction].
        destruct Hc as [<-|[]]. eapply Step_append_lock; eassumption.
      * destruct Hc as [<-|[]]. eapply Step_contains_call; eassumption.
      * destruct Hc as [<-|[]]. eapply Step_traverse_call; eassumption.
    + cbn in Hc. destruct Hc as [<-|[]]. eapply Step_append_store; eassumption.
    + cbn in Hc. destruct Hc as [<-|[]]. eapply Step_append_unlock; eassumption.
    + cbn [app] in Hc. rewrite app_nil_r in Hc. apply in_app_or in Hc as [Hc|Hc].
      * apply in_map_iff in Hc as ([q gs] & Hq & Hin).
        apply senders_inv in Hin as (l1 & r & l2 & Hgs & ->). cbn [app] in Hq.
        destruct (Pipeline_Name q =? n)%string eqn:E; subst c'.
        -- eapply Step_contains_hit; eassumption.
        -- eapply Step_contains_miss; eassumption.
      * destruct (is_closed c0 c) eqn:E; [|contradiction].
        destruct Hc as [<-|[]]. eapply Step_contains_closed; eassumption.
    + cbn [app] in Hc. apply in_app_or in Hc as [Hc|Hc].
      * apply in_map_iff in Hc as ([q gs] & Hq & Hin).
        apply senders_inv in Hin as (l1 & r & l2 & Hgs & ->). cbn [app] in Hq.
        subst c'. eapply Step_traverse_recv; eassumption.
      * destruct (is_closed c0 c) eqn:E; [|contradiction].
        destruct Hc as [<-|[]]. eapply Step_traverse_closed; eassumption.
Qed.

Lemma count_holders_app (l1 l2 : list goroutine) :
  List.length (filter holds_lock (l1 ++ l2))
  = List.length (filter holds_lock l1) + List.length (filter holds_lock l2).
Proof. now rewrite filter_app, length_app. Qed.

Lemma lock_step (c c' : config) :
  Step c c' ->
  holders c = lock_count (mu (ap c)) -> holders c' = lock_count (mu (ap c')).
Proof.
  unfold holders, in_append.
  destruct 1; cbn;
    repeat match goal with
           | E : goroutines c = _ |- _ => rewrite E; clear E
           | E : pc c = _ |- _ => rewrite E; clear E
           | E : mu (ap c) = _ |- _ => rewrite E; clear E
           end;
    rewrite ?count_holders_app; cbn;
    try (destruct (pc c)); destruct (mu (ap c)); cbn; lia.
Qed.

Lemma reachable_Step_ind (I : config -> Prop) :
  (forall c c', I c -> Step c c' -> I c') ->
  forall c c', I c -> reachable c c' -> I c'.
Proof.
  intros Hstep c c' Hc Hr. induction Hr as [|c1 c2 _ IH Hs]; [assumption|].
  eapply Hstep; [exact IH | now apply step_Step].
Qed.

(** What one step does to the entries: nothing, unless it is the
    assignment of [Append], which adds its pipeline at the end. *)
Lemma entries_step (c c' : config) :
  Step c c' ->
  Pipelines (ap c') = Pipelines (ap c)
  \/ exists p, pc c = AppendLocked p
               /\ Pipelines (ap c') = append1 (Pipelines (ap c)) p.
Proof.
  destruct 1; cbn; auto.
  right. exists p. auto.
Qed.

Lemma is_closed_false (ch : nat) (c : config) :
  is_closed ch c = false <-> ~ In ch (closed c).
Proof.
  cbn. split.
  - intros H Hin. assert (E : existsb (Nat.eqb ch) (closed c) = true).
    { apply existsb_exists. exists ch. split; [assumption | apply Nat.eqb_refl]. }
    congruence.
  - intros H. destruct (existsb (Nat.eqb ch) (closed c)) eqn:E; [|reflexivity].
    apply existsb_exists in E as (x & Hin & Hx). apply Nat.eqb_eq in Hx. now subst.
Qed.

(** A goroutine moves on inside its loop: nothing changes for the
    channels. *)
Lemma chan_invariant_move (c c' : config) (pre post : list goroutine)
    (ch : nat) (k k' : iter_pc) :
  goroutines c = pre ++ {| g_chan := ch; g_pc := k |} :: post ->
  goroutines c' = pre ++ {| g_chan := ch; g_pc := k' |} :: post ->
  next_chan c' = next_chan c -> closed c' = closed c ->
  before_close {| g_chan := ch; g_pc := k |} = true ->
  chan_invariant c -> chan_invariant c'.
Proof.
  intros Hgs Hgs' Hn Hcl Hk [Hmade Hown Hcm Hco Hopen].
  assert (Hmap : map g_chan (goroutines c') = map g_chan (goroutines c)).
  { rewrite Hgs, Hgs', !map_app. reflexivity. }
  split.
  - rewrite Hn, Hgs'. rewrite Hgs in Hmade.
    apply Forall_app in Hmade as [H1 H2]. apply Forall_app. split; [assumption|].
    inversion H2; subst. constructor; assumption.
  - now rewrite Hmap.
  - now rewrite Hn, Hcl.
  - now rewrite Hcl.
  - intros g Hg Hb. unfold is_closed. rewrite Hcl.
    rewrite Hgs' in Hg. apply in_app_or in Hg as [Hg|[<-|Hg]].
    + apply (Hopen g); [|assumption]. rewrite Hgs. apply in_or_app. now left.
    + apply (Hopen {| g_chan := ch; g_pc := k |}); [|assumption].
      rewrite Hgs. apply in_elt.
    + apply (Hopen g); [|assumption]. rewrite Hgs. apply in_or_app. right. now right.
Qed.

(** [Iter] makes a new channel and a new goroutine. *)
Lemma chan_invariant_Iter (c : config) (pc' : client_pc) :
  chan_invariant c -> chan_invariant (Iter c pc').
Proof.
  intros [Hmade Hown Hcm Hco Hopen]. split; cbn.
  - apply Forall_app. split.
    + revert Hmade. apply Forall_impl. intros; lia.
    + constructor; [cbn; lia | constructor].
  - rewrite map_app. cbn. apply NoDup_app; [assumption | repeat constructor; auto |].
    intros ch Hin [<-|[]]. apply in_map_iff in Hin as (g & Hg & Hin).
    rewrite Forall_forall in Hmade. specialize (Hmade g Hin). lia.
  - now apply Forall_lt_S.
  - assumption.
  - intros g Hg Hb. apply in_app_or in Hg as [Hg|[<-|[]]].
    + now apply Hopen.
    + cbn. now apply fresh_open.
Qed.

Lemma chan_step (c c' : config) :
  Step c c' -> chan_invariant c -> chan_invariant c'.
Proof.
  intros Hs Hinv.
  destruct Hs;
    try (now apply chan_invariant_Iter);
    try (eapply chan_invariant_move; [eassumption | reflexivity | reflexivity
                                      | reflexivity | reflexivity | assumption]);
    try (destruct Hinv as [Hmade Hown Hcm Hco Hopen]; now split).
  - (* close(c) *)
    destruct Hinv as [Hmade Hown Hcm Hco Hopen].
    assert (Hch : is_closed ch c = false).
    { apply (Hopen {| g_chan := ch; g_pc := IterRange [] |}); [|reflexivity].
      rewrite H. apply in_elt. }
    rewrite H in Hmade, Hown.
    split; cbn.
    + apply Forall_app in Hmade as [H1 H2]. apply Forall_app. split; [assumption|].
      inversion H2; subst. constructor; assumption.
    + now rewrite map_app in *.
    + constructor; [|assumption].
      apply Forall_app in Hmade as [_ H2]. now inversion H2.
    + constructor; [now apply is_closed_false | assumption].
    + intros g Hg Hb.
      assert (Hne : g_chan g <> ch).
      { rewrite map_app in Hown. cbn in Hown. apply NoDup_remove_2 in Hown.
        intros E. apply Hown. rewrite <- E. apply in_or_app.
        apply in_app_or in Hg as [Hg|[Hg|Hg]].
        - left. now apply in_map.
        - subst g. discriminate Hb.
        - right. now apply in_map. }
      apply Nat.eqb_neq in Hne. rewrite Hne. cbn.
      apply in_app_or in Hg as [Hg|[Hg|Hg]]; [| subst g; discriminate Hb |].
      * apply (Hopen g); [|assumption]. rewrite H. apply in_or_app. now left.
      * apply (Hopen g); [|assumption]. rewrite H. apply in_or_app. right. now right.
  - (* the goroutine ends *)
    destruct Hinv as [Hmade Hown Hcm Hco Hopen]. rewrite H in Hmade, Hown.
    split; cbn; auto.
    + apply Forall_app in Hmade as [H1 H2]. apply Forall_app. split; [assumption|].
      now inversion H2.
    + rewrite map_app in *. cbn in Hown. now apply NoDup_remove_1 in Hown.
    + intros g Hg Hb. apply (Hopen g); [|assumption].
      rewrite H. apply in_app_or in Hg as [Hg|Hg]; apply in_or_app; auto.
      right. now right.
Qed.

Lemma has_name_removelast (n : string) (ps : list Pipeline) :
  has_name n (removelast ps) = false ->
  match first_named n ps with
  | Some (_, _, _ :: _) => False
  | _ => True
  end.
Proof.
  induction ps as [|p ps IH]; cbn [removelast first_named]; [trivial|].
  destruct ps as [|q ps].
  - intros _. cbn. now destruct (Pipeline_Name p =? n)%string.
  - cbn [has_name existsb]. intros H. apply orb_false_iff in H as [Hp H].
    rewrite Hp. specialize (IH H).
    destruct (first_named n (q :: ps)) as [[[b r] [|a l]]|]; auto.
Qed.

Lemma wind_down (ps : list Pipeline) (c : config) :
  settled ps c -> todo c = [] ->
  inevitably (fun c' =>
      quiescent c' /\ Pipelines (ap c') = Pipelines (ap c)
      /\ todo c' = [] /\ returned c' = returned c) c.
Proof.
  intros [He Hn Hpc Hwd Hcl Hch] Htd.
  destruct c as [[m P] nc cl gs k td rt]; cbn in *; subst.
  inversion Hwd; subst.
  - apply inev_now. repeat split.
  - do 2 one_step H. apply inev_now. repeat split.
  - one_step H. apply inev_now. repeat split.
Qed.

(** ** Further properties of the registry *)

(** X2.  On a registry at rest, [Contains(n)] returns under every
    schedule, and it returns [true] exactly when an entry has the name
    [n]. *)
Theorem Contains_correct_at_rest (ps : list Pipeline) (n : string)
    (rest : list call) (c : config) :
  settled ps c -> todo c = CallContains n :: rest ->
  inevitably (fun c' =>
      todo c' = rest
      /\ exists b, returned c' = returned c ++ [VBool b]
                   /\ (b = true <-> exists p, In p ps /\ Pipeline_Name p = n)) c.
Proof.
  intros Hs Htd. eapply inevitably_weaken; [exact (contains_returns Hs Htd)|].
  cbn. intros c' (Ht & Hr & _). split; [assumption|].
  exists (has_name n ps). split; [assumption | apply has_name_iff].
Qed.

(** X4.  A [Contains] that does not find the name, or finds it at the
    last entry only, leaves the registry at rest with the entries it
    had: the calls after it find the registry as it was. *)
Theorem Contains_harmless (ps : list Pipeline) (n : string) (rest : list call)
    (c : config) :
  settled ps c -> todo c = CallContains n :: rest ->
  has_name n (removelast ps) = false ->
  inevitably (fun c' =>
      settled ps c' /\ todo c' = rest
      /\ returned c' = returned c ++ [VBool (has_name n ps)]) c.
Proof.
  intros Hs Htd Hlast. apply has_name_removelast in Hlast.
  eapply inevitably_weaken; [exact (contains_returns Hs Htd)|].
  cbn. intros c' (Ht & Hr & _ & Hs').
  destruct (first_named n ps) as [[[before q] [|q' after]]|];
    [| contradiction |]; auto.
Qed.

(** X5.  Mutual exclusion.  In every state that a program started on a
    fresh registry can reach, the goroutines between a [Lock] and its
    [Unlock] (the caller inside [Append], the iterators past
    [ap.Lock()]) are as many as the mutex says: one when it is locked,
    none when it is free.  So [Append] never writes the slice while an
    iterator reads it, and two iterators never run their loops at the
    same time. *)
Theorem mutual_exclusion (prog : list call) (c : config) :
  reachable (start prog) c ->
  holders c = lock_count (mu (ap c)) /\ holders c <= 1.
Proof.
  intros Hr.
  assert (H : holders c = lock_count (mu (ap c))).
  { apply (@reachable_Step_ind (fun c => holders c = lock_count (mu (ap c))))
      with (c := start prog); [|reflexivity|assumption].
    intros c1 c2 H1 Hs. exact (lock_step Hs H1). }
  split; [assumption|]. rewrite H. destruct (mu (ap c)); cbn; lia.
Qed.

(** X6.  The registry only grows at its end: whatever the calls and the
    schedule, the entries of a state reached later start with the
    entries of now, in the same order.  Nothing is removed, replaced or
    moved. *)
Theorem entries_only_grow (c c' : config) :
  reachable c c' ->
  exists l, elems (Pipelines (ap c')) = elems (Pipelines (ap c)) ++ l.
Proof.
  apply (@reachable_Step_ind (fun c' =>
    exists l, elems (Pipelines (ap c')) = elems (Pipelines (ap c)) ++ l)).
  - intros c1 c2 [l Hl] Hs.
    destruct (entries_step Hs) as [E|(p & _ & E)]; rewrite E.
    + now exists l.
    + exists (l ++ [p]). cbn. now rewrite Hl, app_assoc.
  - exists []. now rewrite app_nil_r.
Qed.

Lemma forallb_tl {A} (f : A -> bool) (l : list A) :
  forallb f l = true -> forallb f (tl l) = true.
Proof.
  destruct l as [|x l]; cbn; [trivial|].
  intros H. now apply andb_true_iff in H as [_ H].
Qed.

(** X7.  [Contains] and traversals only read: while the caller has no
    [Append] left to make, the slice of the registry stays what it is,
    under every schedule, blocked registry included. *)
Theorem lookups_change_nothing (c c' : config) :
  in_append c = false ->
  forallb (fun k => negb (is_CallAppend k)) (todo c) = true ->
  reachable c c' ->
  Pipelines (ap c') = Pipelines (ap c).
Proof.
  intros Hin Htd Hr.
  enough (H : in_append c' = false
              /\ forallb (fun k => negb (is_CallAppend k)) (todo c') = true
              /\ Pipelines (ap c') = Pipelines (ap c)) by apply H.
  apply (@reachable_Step_ind (fun c' =>
    in_append c' = false
    /\ forallb (fun k => negb (is_CallAppend k)) (todo c') = true
    /\ Pipelines (ap c') = Pipelines (ap c))) with (c := c); [|auto|assumption].
  intros c1 c2 (Hin1 & Htd1 & HP1) Hs. unfold in_append in *.
  destruct Hs; cbn;
    repeat match goal with
           | E : pc c1 = _ |- _ => rewrite E in Hin1
           end;
    try discriminate; auto using forallb_tl.
  rewrite H0 in Htd1. discriminate.
Qed.

(** X8.  The channels are used as Go requires.  In every state that a
    program started on a fresh registry can reach, every iterator
    goroutine has a channel of its own, no channel has been closed
    twice, and the channel of a goroutine that has still to send or to
    close is open: [Iter] never sends on a closed channel and never
    closes one again. *)
Theorem channels_used_properly (prog : list call) (c : config) :
  reachable (start prog) c ->
  NoDup (map g_chan (goroutines c))
  /\ NoDup (closed c)
  /\ forall g, In g (goroutines c) -> before_close g = true ->
       is_closed (g_chan g) c = false.
Proof.
  intros Hr.
  assert (H : chan_invariant c).
  { apply (@reachable_Step_ind chan_invariant) with (c := start prog);
      [| |assumption].
    - intros c1 c2 H1 Hs. exact (chan_step Hs H1).
    - split; cbn; try constructor; intros g []. }
  destruct H as [_ Hown _ Hco Hopen]. auto.
Qed.

(** X9.  A program in which no [Contains] finds its name before the last
    entry runs to its end under every schedule: every call returns, with
    the values of [outcome], and in the end the lock is free and no
    iterator goroutine is left. *)
Theorem safe_calls_run_to_the_end (prog : list call) (ps : list Pipeline)
    (c : config) :
  settled ps c -> todo c = prog -> safe ps prog = true ->
  inevitably (fun c' =>
      finished (returned c ++ fst (outcome ps prog)) c' /\ quiescent c') c.
Proof.
  revert ps c. induction prog as [|k rest IH]; intros ps c Hs Htd Hsafe.
  - eapply inevitably_weaken; [exact (wind_down Hs Htd)|].
    cbn. intros c' (Hq & _ & Ht & Hr). rewrite app_nil_r. unfold finished. auto.
  - destruct k as [p|n|]; cbn [safe] in Hsafe.
    + eapply inevitably_bind; [exact (append_returns Hs Htd)|].
      cbn. intros c1 (Hs1 & Ht1 & Hr1).
      eapply inevitably_weaken; [exact (IH _ _ Hs1 Ht1 Hsafe)|].
      cbn. intros c' ([Ht' Hr'] & Hq).
      destruct (outcome (ps ++ [p]) rest) as [vs left]. cbn in *.
      rewrite Hr1, <- app_assoc in Hr'. unfold finished. auto.
    + apply andb_true_iff in Hsafe as [Hlast Hsafe].
      apply negb_true_iff in Hlast. apply has_name_removelast in Hlast.
      eapply inevitably_bind; [exact (contains_returns Hs Htd)|].
      cbn. intros c1 (Ht1 & Hr1 & He1 & Hs1).
      destruct (first_named n ps) as [[[before q] [|q' after]]|] eqn:Hf;
        [| contradiction |].
      * eapply inevitably_weaken; [exact (IH _ _ Hs1 Ht1 Hsafe)|].
        cbn. intros c' ([Ht' Hr'] & Hq).
        destruct (outcome ps rest) as [vs left]. cbn in *.
        rewrite Hr1, <- app_assoc in Hr'. unfold finished. auto.
      * eapply inevitably_weaken; [exact (IH _ _ Hs1 Ht1 Hsafe)|].
        cbn. intros c' ([Ht' Hr'] & Hq).
        destruct (outcome ps rest) as [vs left]. cbn in *.
        rewrite Hr1, <- app_assoc in Hr'. unfold finished. auto.
    + eapply inevitably_bind; [exact (traverse_returns Hs Htd)|].
      cbn. intros c1 (Hs1 & Ht1 & Hr1).
      eapply inevitably_weaken; [exact (IH _ _ Hs1 Ht1 Hsafe)|].
      cbn. intros c' ([Ht' Hr'] & Hq).
      destruct (outcome ps rest) as [vs left]. cbn in *.
      rewrite Hr1, <- app_assoc in Hr'. unfold finished. auto.
Qed.

Lemma appends_traverses_return (prog : list call) (ps : list Pipeline)
    (c : config) :
  settled ps c -> todo c = prog ->
  forallb (fun k => negb (is_CallContains k)) prog = true ->
  inevitably (fun c' =>
      finished (returned c ++ fst (outcome ps prog)) c' /\ quiescent c') c.
Proof.
  revert ps c. induction prog as [|k rest IH]; intros ps c Hs Htd Hk.
  - eapply inevitably_weaken; [exact (wind_down Hs Htd)|].
    cbn. intros c' (Hq & _ & Ht & Hr). rewrite app_nil_r. unfold finished. auto.
  - destruct k as [p|n|]; cbn in Hk; [|discriminate|].
    + eapply inevitably_bind; [exact (append_returns Hs Htd)|].
      cbn. intros c1 (Hs1 & Ht1 & Hr1).
      eapply inevitably_weaken; [exact (IH _ _ Hs1 Ht1 Hk)|].
      cbn. intros c' ([Ht' Hr'] & Hq).
      destruct (outcome (ps ++ [p]) rest) as [vs left]. cbn in *.
      rewrite Hr1, <- app_assoc in Hr'. unfold finished. auto.
    + eapply inevitably_bind; [exact (traverse_returns Hs Htd)|].
      cbn. intros c1 (Hs1 & Ht1 & Hr1).
      eapply inevitably_weaken; [exact (IH _ _ Hs1 Ht1 Hk)|].
      cbn. intros c' ([Ht' Hr'] & Hq).
      destruct (outcome ps rest) as [vs left]. cbn in *.
      rewrite Hr1, <- app_assoc in Hr'. unfold finished. auto.
Qed.

(** X10.  A sequence of calls made one after the other by one caller on
    a fresh registry, each of them an [Append] or a traversal that runs
    to the end of its channel and whose loop body only collects the
    entries (it makes no call on the registry), never blocks: under
    every schedule every call returns, with the values of [outcome], and
    in the end the lock is free and no iterator goroutine is left.
    Nothing is said of a loop body that calls the registry: there the
    caller would ask for the lock while the iterator holds it. *)
Theorem Append_and_Traverse_never_block (prog : list call) :
  forallb (fun k => negb (is_CallContains k)) prog = true ->
  inevitably (fun c =>
      finished (fst (outcome [] prog)) c /\ quiescent c) (start prog).
Proof.
  intros H.
  apply (@appends_traverses_return prog [] (start prog));
    [apply settled_start | reflexivity | assumption].
Qed.

(** X14.  The slice of a registry made by [NewActivePipelines] is never
    [nil]: not when it is made, and in no state that a program run on it
    can reach. *)
Theorem Pipelines_never_nil (prog : list call) (c : config) :
  reachable (start prog) c -> is_nil (Pipelines (ap c)) = false.
Proof.
  intros Hr.
  apply (@reachable_Step_ind (fun c => is_nil (Pipelines (ap c)) = false))
    with (c := start prog); [|reflexivity|assumption].
  intros c1 c2 H1 Hs.
  destruct (entries_step Hs) as [E|(p & _ & E)]; rewrite E; [assumption|reflexivity].
Qed.

Lemma has_name_removelast_true (n : string) (ps : list Pipeline) :
  has_name n (removelast ps) = true ->
  exists before p q after, first_named n ps = Some (before, p, q :: after).
Proof.
  induction ps as [|p ps IH]; cbn [removelast first_named]; [discriminate|].
  destruct ps as [|q ps]; [discriminate|].
  cbn [has_name existsb]. intros H.
  destruct (Pipeline_Name p =? n)%string eqn:Hp.
  - now exists [], p, q, ps.
  - cbn in H. destruct (IH H) as (b & r & q' & a & E). rewrite E.
    now exists (p :: b), r, q', a.
Qed.

(** X11.  A program in which some [Contains] finds its name before the
    last entry blocks the registry for good: under every schedule it
    gets to a state from which the lock is never free again and no call
    returns any more. *)
Theorem unsafe_calls_block_the_registry (prog : list call) (ps : list Pipeline)
    (c : config) :
  settled ps c -> todo c = prog -> safe ps prog = false ->
  inevitably (fun c' =>
      forall c'', reachable c' c'' ->
        mu (ap c'') = Locked /\ returned c'' = returned c') c.
Proof.
  revert ps c. induction prog as [|k rest IH]; intros ps c Hs Htd Hsafe;
    [discriminate|].
  destruct k as [p|n|]; cbn [safe] in Hsafe.
  - eapply inevitably_bind; [exact (append_returns Hs Htd)|].
    cbn. intros c1 (Hs1 & Ht1 & _). exact (IH _ _ Hs1 Ht1 Hsafe).
  - eapply inevitably_bind; [exact (contains_returns Hs Htd)|].
    cbn. intros c1 (Ht1 & _ & _ & Hs1).
    destruct (has_name n (removelast ps)) eqn:Hlast; cbn in Hsafe.
    + destruct (has_name_removelast_true _ _ Hlast) as (b & p & q & a & E).
      rewrite E in Hs1. destruct Hs1 as [ch Hst]. apply inev_now.
      intros c2 Hr. destruct (stuck_forever Hst Hr) as ([Hm _ _ _ _ _ _] & Hr2 & _).
      auto.
    + apply has_name_removelast in Hlast.
      destruct (first_named n ps) as [[[before q] [|q' after]]|];
        [| contradiction |]; exact (IH _ _ Hs1 Ht1 Hsafe).
  - eapply inevitably_bind; [exact (traverse_returns Hs Htd)|].
    cbn. intros c1 (Hs1 & Ht1 & _). exact (IH _ _ Hs1 Ht1 Hsafe).
Qed.


(** ** Further properties of the naming helper *)

Lemma append_self_longer (x : string) (d : ascii) (s : string) :
  s <> (x ++ String d s)%string.
Proof.
  intros E. apply (f_equal String.length) in E.
  rewrite append_length in E. cbn in E. lia.
Qed.

(** X12.  For one pipeline type, or two with the same string, different
    names are given different artifact names, whatever characters the
    names are made of. *)
Theorem appendTypeToName_same_type_injective (n1 n2 : string)
    (t1 t2 : PipelineType) :
  PipelineType_String t1 = PipelineType_String t2 ->
  appendTypeToName n1 t1 = appendTypeToName n2 t2 ->
  n1 = n2.
Proof.
  intros Ht E.
  destruct (appendTypeToName_collision_inv _ _ _ _ E) as [[H _]|[[x H]|[x H]]].
  - assumption.
  - rewrite Ht in H. unfold typeDelimiter in H. cbn [String.append] in H.
    now apply append_self_longer in H.
  - rewrite Ht in H. unfold typeDelimiter in H. cbn [String.append] in H.
    now apply append_self_longer in H.
Qed.

(** X13.  When the strings of the pipeline types do not contain the
    delimiter, the artifact name tells the name and the type string
    apart, also for names that contain the delimiter: equal artifact
    names come from equal names and equal type strings. *)
Theorem appendTypeToName_injective (n1 n2 : string) (t1 t2 : PipelineType) :
  strings.Contains (PipelineType_String t1) typeDelimiter = false ->
  strings.Contains (PipelineType_String t2) typeDelimiter = false ->
  appendTypeToName n1 t1 = appendTypeToName n2 t2 ->
  n1 = n2 /\ PipelineType_String t1 = PipelineType_String t2.
Proof.
  intros H1 H2 E.
  destruct (appendTypeToName_collision_inv _ _ _ _ E) as [H|[[x H]|[x H]]].
  - assumption.
  - rewrite H in H1. unfold typeDelimiter in H1. cbn [String.append] in H1.
    rewrite Contains_append_char in H1. discriminate.
  - rewrite H in H2. unfold typeDelimiter in H2. cbn [String.append] in H2.
    rewrite Contains_append_char in H2. discriminate.
Qed.

End Package.

(** ** The definitions run on the sample declarations *)

Example appendTypeToName_demo :
  appendTypeToName Sample.PipelineType_String "demo" Sample.GOLANG = "demo_golang".
Proof. reflexivity. Qed.

Example parseArtifactName_demo :
  parseArtifactName Sample.parseType "demo_golang" = Some ("demo", "golang").
Proof. reflexivity. Qed.

(** A name with the delimiter in it is cut too early. *)
Example parseArtifactName_my_demo :
  parseArtifactName Sample.parseType
    (appendTypeToName Sample.PipelineType_String "my_demo" Sample.GOLANG)
  = Some ("my", "demo_golang").
Proof. reflexivity. Qed.

(** Every schedule of: append [demo], append [other], ask for ["other"]
    (found at the last entry), ask for ["demo"] (found at the first),
    runs to the end. *)
Example explore_hit_at_last_entry :
  inevitably Sample.Name
    (fun c => match todo c, returned c with
              | [], [VUnit _; VUnit _; VBool _ true; VBool _ true] => true
              | _, _ => false
              end = true)
    (start [CallAppend Sample.demo; CallAppend Sample.other;
            CallContains _ "other"; CallContains _ "demo"]).
Proof. apply explore_sound with (fuel := 40). vm_compute. reflexivity. Qed.

(** With the two questions in the other order, the third value is there
    in every schedule, and no schedule gets a fourth value back within
    the steps explored. *)
Example explore_hit_at_first_entry :
  explore Sample.Name 40
    (fun c => match returned c with
              | [VUnit _; VUnit _; VBool _ true] => true
              | _ => false
              end)
    (start [CallAppend Sample.demo; CallAppend Sample.other;
            CallContains _ "demo"; CallContains _ "other"])
  = true
  /\ explore Sample.Name 40
       (fun c => Nat.leb 4 (List.length (returned c)))
       (start [CallAppend Sample.demo; CallAppend Sample.other;
               CallContains _ "demo"; CallContains _ "other"])
     = false.
Proof. split; vm_compute; reflexivity. Qed.

(** ** The theorems at the sample declarations *)

Lemma NewBuildPipeline_dispatch_witness :
  NewBuildPipeline string_dec Sample.GOLANG "java" = BuildPipeline_nil string
  /\ exists b,
       NewBuildPipeline string_dec Sample.GOLANG "golang" = BuildPipeline_Golang b
       /\ BuildPipelineGolang_Type b = "golang".
Proof.
  split.
  - apply (NewBuildPipeline_dispatch string_dec Sample.GOLANG "java").
    unfold Sample.GOLANG. discriminate.
  - apply (NewBuildPipeline_dispatch string_dec Sample.GOLANG "golang").
    reflexivity.
Defined.

Lemma parseArtifactName_appendTypeToName_witness :
  parseArtifactName Sample.parseType
    (appendTypeToName Sample.PipelineType_String "demo" Sample.GOLANG)
  = Some ("demo", Sample.GOLANG).
Proof.
  apply (parseArtifactName_appendTypeToName Sample.PipelineType_String
           Sample.parseType "demo" Sample.GOLANG).
  - intros t'. reflexivity.
  - reflexivity.
Defined.


Lemma Contains_early_return_deadlock_witness :
  inevitably Sample.Name (fun c1 =>
      returned c1 = [VBool Sample.Pipeline true]
      /\ todo c1 = [CallAppend Sample.demo]
      /\ exists ch,
          forall c2, reachable Sample.Name c1 c2 ->
            mu (ap c2) = Locked
            /\ In {| g_chan := ch; g_pc := IterRange [Sample.other] |} (goroutines c2)
            /\ receiving c2 <> Some ch
            /\ (forall g, In g (goroutines c2) -> g_chan g <> ch ->
                g_pc g = IterLock Sample.Pipeline)
            /\ returned c2 = returned c1
            /\ todo c2 = [CallAppend Sample.demo])
    {| ap := {| mu := Unlocked; Pipelines := mk_slice [Sample.demo; Sample.other] |};
       next_chan := 0; closed := []; goroutines := [];
       pc := Idle Sample.Pipeline;
       todo := [CallContains Sample.Pipeline "demo"; CallAppend Sample.demo];
       returned := [] |}.
Proof.
  apply (@Contains_early_return_deadlock Sample.Pipeline Sample.Name
           [Sample.demo; Sample.other] [] [] Sample.demo Sample.other "demo"
           [CallAppend Sample.demo]
           {| ap := {| mu := Unlocked;
                       Pipelines := mk_slice [Sample.demo; Sample.other] |};
              next_chan := 0; closed := []; goroutines := [];
              pc := Idle Sample.Pipeline;
              todo := [CallContains Sample.Pipeline "demo"; CallAppend Sample.demo];
              returned := [] |}).
  - split; simpl; constructor.
  - reflexivity.
  - reflexivity.
Defined.

(** ** The further properties at the sample declarations *)

Lemma run_outcome_witness :
  inevitably Sample.Name (fun c' =>
      returned c' = [VUnit _; VUnit _; VBool _ true]
      /\ todo c' = [CallAppend Sample.demo]
      /\ (todo c' = [] \/ blocked_forever Sample.Name c'))
    (start [CallAppend Sample.demo; CallAppend Sample.other;
            CallContains _ "demo"; CallAppend Sample.demo]).
Proof.
  apply (@run_outcome Sample.Pipeline Sample.Name
           [CallAppend Sample.demo; CallAppend Sample.other;
            CallContains _ "demo"; CallAppend Sample.demo]
           []
           (start [CallAppend Sample.demo; CallAppend Sample.other;
                   CallContains _ "demo"; CallAppend Sample.demo])).
  - split; simpl; constructor.
  - reflexivity.
Defined.

Lemma Contains_correct_at_rest_witness :
  inevitably Sample.Name (fun c' =>
      todo c' = []
      /\ exists b, returned c' = [VBool _ b]
                   /\ (b = true <->
                       exists p, In p [Sample.demo; Sample.other]
                                 /\ Sample.Name p = "other"))
    {| ap := {| mu := Unlocked; Pipelines := mk_slice [Sample.demo; Sample.other] |};
       next_chan := 0; closed := []; goroutines := [];
       pc := Idle Sample.Pipeline;
       todo := [CallContains Sample.Pipeline "other"];
       returned := [] |}.
Proof.
  apply (@Contains_correct_at_rest Sample.Pipeline Sample.Name
           [Sample.demo; Sample.other] "other" []
           {| ap := {| mu := Unlocked;
                       Pipelines := mk_slice [Sample.demo; Sample.other] |};
              next_chan := 0; closed := []; goroutines := [];
              pc := Idle Sample.Pipeline;
              todo := [CallContains Sample.Pipeline "other"];
              returned := [] |}).
  - split; simpl; constructor.
  - reflexivity.
Defined.

Lemma Contains_after_Append_witness :
  inevitably Sample.Name (fun c' =>
      todo c' = [] /\ returned c' = [VUnit _; VBool _ true])
    (start [CallAppend Sample.demo; CallContains _ "demo"]).
Proof.
  apply (@Contains_after_Append Sample.Pipeline Sample.Name [] Sample.demo []
           (start [CallAppend Sample.demo; CallContains _ "demo"])).
  - split; simpl; constructor.
  - reflexivity.
Defined.

Lemma Contains_harmless_witness :
  inevitably Sample.Name (fun c' =>
      settled [Sample.demo; Sample.other] c' /\ todo c' = [CallTraverse _]
      /\ returned c' = [VBool _ true])
    {| ap := {| mu := Unlocked; Pipelines := mk_slice [Sample.demo; Sample.other] |};
       next_chan := 0; closed := []; goroutines := [];
       pc := Idle Sample.Pipeline;
       todo := [CallContains Sample.Pipeline "other"; CallTraverse _];
       returned := [] |}.
Proof.
  apply (@Contains_harmless Sample.Pipeline Sample.Name
           [Sample.demo; Sample.other] "other" [CallTraverse _]
           {| ap := {| mu := Unlocked;
                       Pipelines := mk_slice [Sample.demo; Sample.other] |};
              next_chan := 0; closed := []; goroutines := [];
              pc := Idle Sample.Pipeline;
              todo := [CallContains Sample.Pipeline "other"; CallTraverse _];
              returned := [] |}).
  - split; simpl; constructor.
  - reflexivity.
  - reflexivity.
Defined.

Lemma mutual_exclusion_witness :
  holders (Iter (start [CallTraverse Sample.Pipeline]) (TraverseRange 0 []))
  = lock_count
      (mu (ap (Iter (start [CallTraverse Sample.Pipeline]) (TraverseRange 0 []))))
  /\ holders (Iter (start [CallTraverse Sample.Pipeline]) (TraverseRange 0 [])) <= 1.
Proof.
  apply (@mutual_exclusion Sample.Pipeline Sample.Name [CallTraverse _]).
  eapply reach_step; [apply reach_refl|]. left. reflexivity.
Defined.

Lemma entries_only_grow_witness :
  exists l,
    elems (Pipelines (ap (goto (start [CallAppend Sample.demo])
                            (set_mu Locked (NewActivePipelines _)) []
                            (AppendLocked Sample.demo))))
    = (elems (Pipelines (ap (start [CallAppend Sample.demo]))) ++ l)%list.
Proof.
  apply (@entries_only_grow Sample.Pipeline Sample.Name
           (start [CallAppend Sample.demo])).
  eapply reach_step; [apply reach_refl|]. left. reflexivity.
Defined.

Lemma lookups_change_nothing_witness :
  Pipelines (ap (Iter (start [CallContains Sample.Pipeline "demo"])
                   (ContainsRange Sample.Pipeline "demo" 0)))
  = Pipelines (ap (start [CallContains Sample.Pipeline "demo"])).
Proof.
  apply (@lookups_change_nothing Sample.Pipeline Sample.Name
           (start [CallContains _ "demo"])).
  - reflexivity.
  - reflexivity.
  - eapply reach_step; [apply reach_refl|]. left. reflexivity.
Defined.

Lemma channels_used_properly_witness :
  NoDup (map (@g_chan _) (goroutines (Iter (start [CallTraverse Sample.Pipeline])
                                        (TraverseRange 0 []))))
  /\ NoDup (closed (Iter (start [CallTraverse Sample.Pipeline]) (TraverseRange 0 [])))
  /\ forall g,
       In g (goroutines (Iter (start [CallTraverse Sample.Pipeline])
                           (TraverseRange 0 []))) ->
       before_close g = true ->
       is_closed (g_chan g)
         (Iter (start [CallTraverse Sample.Pipeline]) (TraverseRange 0 [])) = false.
Proof.
  apply (@channels_used_properly Sample.Pipeline Sample.Name [CallTraverse _]).
  eapply reach_step; [apply reach_refl|]. left. reflexivity.
Defined.

Lemma safe_calls_run_to_the_end_witness :
  inevitably Sample.Name (fun c' =>
      finished [VUnit _; VUnit _; VBool _ true; VEntries [Sample.demo; Sample.other]] c'
      /\ quiescent c')
    (start [CallAppend Sample.demo; CallAppend Sample.other;
            CallContains _ "other"; CallTraverse _]).
Proof.
  apply (@safe_calls_run_to_the_end Sample.Pipeline Sample.Name
           [CallAppend Sample.demo; CallAppend Sample.other;
            CallContains _ "other"; CallTraverse _]
           []
           (start [CallAppend Sample.demo; CallAppend Sample.other;
                   CallContains _ "other"; CallTraverse _])).
  - split; simpl; constructor.
  - reflexivity.
  - reflexivity.
Defined.

Lemma Append_and_Traverse_never_block_witness :
  inevitably Sample.Name (fun c =>
      finished [VUnit _; VEntries [Sample.demo]; VUnit _;
                VEntries [Sample.demo; Sample.demo]] c
      /\ quiescent c)
    (start [CallAppend Sample.demo; CallTraverse _;
            CallAppend Sample.demo; CallTraverse _]).
Proof.
  apply (@Append_and_Traverse_never_block Sample.Pipeline Sample.Name
           [CallAppend Sample.demo; CallTraverse _;
            CallAppend Sample.demo; CallTraverse _]).
  reflexivity.
Defined.

Lemma unsafe_calls_block_the_registry_witness :
  inevitably Sample.Name (fun c' =>
      forall c'', reachable Sample.Name c' c'' ->
        mu (ap c'') = Locked /\ returned c'' = returned c')
    (start [CallAppend Sample.demo; CallAppend Sample.other;
            CallContains _ "demo"; CallAppend Sample.demo]).
Proof.
  apply (@unsafe_calls_block_the_registry Sample.Pipeline Sample.Name
           [CallAppend Sample.demo; CallAppend Sample.other;
            CallContains _ "demo"; CallAppend Sample.demo]
           []).
  - split; simpl; constructor.
  - reflexivity.
  - reflexivity.
Defined.

Lemma appendTypeToName_same_type_injective_witness : "my_demo" = "my_demo".
Proof.
  apply (@appendTypeToName_same_type_injective string Sample.PipelineType_String
           "my_demo" "my_demo" Sample.GOLANG Sample.GOLANG).
  - reflexivity.
  - reflexivity.
Defined.

Lemma appendTypeToName_injective_witness :
  "my_demo" = "my_demo"
  /\ Sample.PipelineType_String Sample.GOLANG
     = Sample.PipelineType_String Sample.GOLANG.
Proof.
  apply (@appendTypeToName_injective string Sample.PipelineType_String
           "my_demo" "my_demo" Sample.GOLANG Sample.GOLANG).
  - reflexivity.
  - reflexivity.
  - reflexivity.
Defined.

Lemma Pipelines_never_nil_witness :
  is_nil (Pipelines (ap (goto (start [CallAppend Sample.demo])
                           (set_mu Locked (NewActivePipelines _)) []
                           (AppendLocked Sample.demo))))
  = false.
Proof.
  apply (@Pipelines_never_nil Sample.Pipeline Sample.Name [CallAppend Sample.demo]).
  eapply reach_step; [apply reach_refl|]. left. reflexivity.
Defined.

(** ** The naming helper at an enumeration of pipeline types *)

